(** * Cyberwall: dual linear-actuator wall controller (src/main.cpp)

    A shallow embedding of the Arduino sketch: the pulse-counting interrupt
    handlers with their debounce filter, the synchronising drive routine
    [driveActuators], and the limit seeker [moveToLimit].

    Conventions of the embedding.
    - C++ integers are [Z] values with the wrap-around of their width written
      out at every arithmetic operation ([long] and [unsigned long] are 32 bits
      on every Arduino core; the width of [int] is a field of the build).
    - The globals of the sketch form the record [state]; every function of the
      sketch is a state transformer.
    - [millis()] reads a clock the program does not control: a function that
      calls it takes the (real, unbounded) time of each call as an argument.
    - [analogWrite] and [Serial.print] append to output logs kept in the
      state. *)

From Stdlib Require Import ZArith Lia Bool Sorted.
From stdpp Require Import base numbers list strings.

Local Open Scope Z_scope.

(** ** Machine integers *)

Module MachineInt.

(** Two's-complement reading of [z] in [w] bits. *)
Definition swrap (w z : Z) : Z := (z + 2 ^ (w - 1)) mod 2 ^ w - 2 ^ (w - 1).

(** Unsigned reading of [z] in [w] bits. *)
Definition uwrap (w z : Z) : Z := z mod 2 ^ w.

Definition smin (w : Z) : Z := - 2 ^ (w - 1).
Definition smax (w : Z) : Z := 2 ^ (w - 1) - 1.

Definition in_srange (w z : Z) : Prop := smin w <= z <= smax w.

End MachineInt.

Import MachineInt.

(** ** Build configuration

    What the preprocessor and the target fix before the sketch runs: the
    width of [int], the number of actuators and the pin tables. *)

Class Build := {
  int_bits : Z;
  NUMBER_OF_ACTUATORS : nat;
  FPWM : list Z;
  RPWM : list Z;
  HALL : list Z
}.

(** The build of the repository: two actuators on the pins of main.cpp, on
    an AVR board (16-bit [int]). *)
Definition uno : Build := {|
  int_bits := 16;
  NUMBER_OF_ACTUATORS := 2;
  FPWM := [9; 5];
  RPWM := [10; 6];
  HALL := [2; 3]
|}.

(** The same sketch on a core with a 32-bit [int] (ARM, ESP32). *)
Definition due : Build := {|
  int_bits := 32;
  NUMBER_OF_ACTUATORS := 2;
  FPWM := [9; 5];
  RPWM := [10; 6];
  HALL := [2; 3]
|}.

Definition long_bits : Z := 32.

Definition FALSE_PULSE_DELAY : Z := 8.
Definition BASE_SPEED : Z := 100.
Definition OFFSET_MULTIPLIER : Z := 5.

(** ** Data model *)

Record ActuatorData := mkActuatorData {
  speed : Z;       (* int *)
  steps : Z;       (* volatile long *)
  prevSteps : Z    (* volatile long *)
}.

Global Instance ActuatorData_inhabited : Inhabited ActuatorData :=
  populate (mkActuatorData 0 0 0).

Inductive serial_item :=
| SerialStr (s : string)
| SerialNum (z : Z)
| SerialLn.

Record state := mkState {
  actuators : list ActuatorData;
  direction : Z;                 (* int: 1 forward, -1 reverse, 0 stop *)
  lastDebounceTime : list Z;     (* volatile unsigned long [] *)
  lastLogTime : Z;               (* unsigned long *)
  pwm : list (Z * Z);            (* analogWrite(pin, value) calls, oldest first *)
  serial : list serial_item      (* what was sent over Serial, oldest first *)
}.

Definition with_actuators (l : list ActuatorData) (st : state) : state :=
  mkState l (direction st) (lastDebounceTime st) (lastLogTime st) (pwm st) (serial st).
Definition with_direction (d : Z) (st : state) : state :=
  mkState (actuators st) d (lastDebounceTime st) (lastLogTime st) (pwm st) (serial st).
Definition with_lastDebounceTime (l : list Z) (st : state) : state :=
  mkState (actuators st) (direction st) l (lastLogTime st) (pwm st) (serial st).
Definition with_lastLogTime (t : Z) (st : state) : state :=
  mkState (actuators st) (direction st) (lastDebounceTime st) t (pwm st) (serial st).
Definition with_pwm (l : list (Z * Z)) (st : state) : state :=
  mkState (actuators st) (direction st) (lastDebounceTime st) (lastLogTime st) l (serial st).
Definition with_serial (l : list serial_item) (st : state) : state :=
  mkState (actuators st) (direction st) (lastDebounceTime st) (lastLogTime st) (pwm st) l.

(** [actuators[i]] read as a whole, and the three field assignments. *)
Definition actuator (st : state) (i : nat) : ActuatorData := actuators st !!! i.

Definition set_speed (i : nat) (v : Z) (st : state) : state :=
  with_actuators
    (alter (fun a => mkActuatorData v (steps a) (prevSteps a)) i (actuators st)) st.
Definition set_steps (i : nat) (v : Z) (st : state) : state :=
  with_actuators
    (alter (fun a => mkActuatorData (speed a) v (prevSteps a)) i (actuators st)) st.
Definition set_prevSteps (i : nat) (v : Z) (st : state) : state :=
  with_actuators
    (alter (fun a => mkActuatorData (speed a) (steps a) v) i (actuators st)) st.

(** ** Arithmetic of the sketch *)

Section Sketch.
Context {B : Build}.

Definition add_long (a b : Z) : Z := swrap long_bits (a + b).
Definition sub_long (a b : Z) : Z := swrap long_bits (a - b).
Definition mul_long (a b : Z) : Z := swrap long_bits (a * b).
(** [long / long], truncating toward zero; the one quotient that leaves the
    range is [LONG_MIN / -1]. *)
Definition div_long (a b : Z) : Z := swrap long_bits (Z.quot a b).

Definition long_to_int (a : Z) : Z := swrap int_bits a.
Definition add_int (a b : Z) : Z := swrap int_bits (a + b).
Definition neg_int (a : Z) : Z := swrap int_bits (- a).

(** Arduino.h: [#define abs(x) ((x)>0?(x):-(x))] and
    [#define min(a,b) ((a)<(b)?(a):(b))], here at type [int]. *)
Definition arduino_abs (x : Z) : Z := if x >? 0 then x else neg_int x.
Definition arduino_min (a b : Z) : Z := if a <? b then a else b.

(** [millis()]: the time since boot in milliseconds as an [unsigned long]. *)
Definition millis (T : Z) : Z := uwrap long_bits T.
Definition sub_ulong (a b : Z) : Z := uwrap long_bits (a - b).

(** [for (int i = 0; i < n; i++) body(i)] *)
Fixpoint for_loop {S : Type} (n : nat) (body : nat -> S -> S) (s : S) : S :=
  match n with
  | O => s
  | Datatypes.S k => body k (for_loop k body s)
  end.

(** ** Outputs *)

Definition analogWrite (pin v : Z) (st : state) : state :=
  with_pwm (pwm st ++ [(pin, v)]) st.

Definition Serial_print (it : serial_item) (st : state) : state :=
  with_serial (serial st ++ [it]) st.
Definition Serial_println (it : serial_item) (st : state) : state :=
  with_serial (serial st ++ [it; SerialLn]) st.

(** ** logActuatorStatus (main.cpp 106-120)

    [T1] and [T2] are the times of its two [millis()] calls. *)
Definition logActuatorStatus (T1 T2 : Z) (st : state) : state :=
  if sub_ulong (millis T1) (lastLogTime st) >=? 1000 then
    let st := with_lastLogTime (millis T2) st in
    let st := Serial_print (SerialStr "Actuator 1 speed: ") st in
    let st := Serial_print (SerialNum (speed (actuator st 0))) st in
    let st := Serial_print (SerialStr " | Pos: ") st in
    let st := Serial_print (SerialNum (steps (actuator st 0))) st in
    let st := Serial_print (SerialStr " | Actuator 2 speed: ") st in
    let st := Serial_print (SerialNum (speed (actuator st 1))) st in
    let st := Serial_print (SerialStr " | Pos: ") st in
    Serial_println (SerialNum (steps (actuator st 1))) st
  else st.

(** ** driveActuators (main.cpp 72-102)

    A call is one step of the main thread: no interrupt falls between its
    statements, so that both loops read the same step counts. *)

(** Lines 74-78: the accumulation loop. *)
Definition totalSteps (st : state) : Z :=
  for_loop NUMBER_OF_ACTUATORS
    (fun i total => add_long total (steps (actuator st i))) 0.

(** Line 79. *)
Definition avgSteps (st : state) : Z :=
  div_long (totalSteps st) (Z.of_nat NUMBER_OF_ACTUATORS).

(** Line 83: [(avgSteps - steps) * OFFSET_MULTIPLIER * direction], computed
    in [long] and stored in an [int]. *)
Definition offset (avg s d : Z) : Z :=
  long_to_int (mul_long (mul_long (sub_long avg s) OFFSET_MULTIPLIER) d).

(** Line 84. *)
Definition drive_speed (off : Z) : Z :=
  arduino_min (arduino_abs (add_int BASE_SPEED off)) 255.

(** Lines 83-99: the body of the second loop, for actuator [i]. *)
Definition drive_actuator (avg : Z) (i : nat) (st : state) : state :=
  let off := offset avg (steps (actuator st i)) (direction st) in
  let st := set_speed i (drive_speed off) st in
  if direction st =? 1 then
    let st := analogWrite (FPWM !!! i) (speed (actuator st i)) st in
    analogWrite (RPWM !!! i) 0 st
  else if direction st =? -1 then
    let st := analogWrite (FPWM !!! i) 0 st in
    analogWrite (RPWM !!! i) (speed (actuator st i)) st
  else
    let st := analogWrite (FPWM !!! i) 0 st in
    analogWrite (RPWM !!! i) 0 st.

(** The call without its final logging. *)
Definition drive_all (st : state) : state :=
  for_loop NUMBER_OF_ACTUATORS (drive_actuator (avgSteps st)) st.

Definition driveActuators (T1 T2 : Z) (st : state) : state :=
  logActuatorStatus T1 T2 (drive_all st).

(** The offset line 83 computes for actuator [i] in a call from [st]. *)
Definition offset_of (st : state) (i : nat) : Z :=
  offset (avgSteps st) (steps (actuator st i)) (direction st).

Definition offsets (st : state) : list Z :=
  offset_of st <$> seq 0 NUMBER_OF_ACTUATORS.

(** ** Interrupt handlers (main.cpp 156-168)

    [counter_0] and [counter_1] differ in the index only.  [T1] is the time
    of the [millis()] call in the test, [T2] of the one that is stored. *)
Definition debounce_elapsed (i : nat) (T1 : Z) (st : state) : bool :=
  sub_ulong (millis T1) (lastDebounceTime st !!! i) >? FALSE_PULSE_DELAY.

Definition counter (i : nat) (T1 T2 : Z) (st : state) : state :=
  if debounce_elapsed i T1 st then
    let st := with_lastDebounceTime (<[i := millis T2]> (lastDebounceTime st)) st in
    set_steps i (add_long (steps (actuator st i)) (direction st)) st
  else st.

Definition counter_0 : Z -> Z -> state -> state := counter 0.
Definition counter_1 : Z -> Z -> state -> state := counter 1.

(** ** haveStepsChanged (main.cpp 146-153)

    The loop returns at the first actuator whose count differs. *)
Fixpoint haveStepsChanged_from (i n : nat) (st : state) : bool :=
  match n with
  | O => false
  | Datatypes.S n' =>
      if negb (prevSteps (actuator st i) =? steps (actuator st i)) then true
      else haveStepsChanged_from (Datatypes.S i) n' st
  end.

Definition haveStepsChanged (st : state) : bool :=
  haveStepsChanged_from 0 NUMBER_OF_ACTUATORS st.

(** ** moveToLimit (main.cpp 124-142) *)

(** Lines 126-129. *)
Definition moveToLimit_reset (st : state) : state :=
  for_loop NUMBER_OF_ACTUATORS
    (fun i st => set_prevSteps i 0 (set_steps i 0 st)) st.

(** Lines 131-133. *)
Definition moveToLimit_snapshot (st : state) : state :=
  for_loop NUMBER_OF_ACTUATORS
    (fun i st => set_prevSteps i (steps (actuator st i)) st) st.

(** Lines 137-138: the two writes for actuator [i]. *)
Definition moveToLimit_write (spd : Z) (i : nat) (st : state) : state :=
  let st := analogWrite (FPWM !!! i) (if direction st =? 1 then spd else 0) st in
  analogWrite (RPWM !!! i) (if direction st =? -1 then spd else 0) st.

(** Lines 136-139: one pass of the busy-wait body. *)
Definition moveToLimit_spin (spd : Z) (st : state) : state :=
  for_loop NUMBER_OF_ACTUATORS (moveToLimit_write spd) st.

(** What happens while [timeElapsed < 200] holds is decided by the clock
    and the sensors: a dwell window is the sequence of passes of the
    busy-wait body and of the interrupts that preempt it. *)
Inductive dwell_item :=
| Spin
| Irq (i : nat) (T1 T2 : Z).

Definition dwell_step (spd : Z) (st : state) (it : dwell_item) : state :=
  match it with
  | Spin => moveToLimit_spin spd st
  | Irq i T1 T2 => counter i T1 T2 st
  end.

(** Lines 134-140. *)
Definition dwell (spd : Z) (w : list dwell_item) (st : state) : state :=
  fold_left (dwell_step spd) w st.

(** One pass of the do-while body, lines 131-140.  The interrupts of a pass
    are those of its dwell window, which lasts 200 ms; the snapshot before it
    and the check after it take microseconds and are taken as undisturbed. *)
Definition moveToLimit_iterate (spd : Z) (w : list dwell_item) (st : state) : state :=
  dwell spd w (moveToLimit_snapshot st).

(** The do-while loop, lines 130-141, run on the dwell windows the
    environment supplies; [None] when the loop is still running after the
    last of them. *)
Fixpoint moveToLimit_loop (spd : Z) (ws : list (list dwell_item)) (st : state)
  : option state :=
  match ws with
  | [] => None
  | w :: ws' =>
      let st' := moveToLimit_iterate spd w st in
      if haveStepsChanged st' then moveToLimit_loop spd ws' st' else Some st'
  end.

Definition moveToLimit (spd : Z) (ws : list (list dwell_item)) (st : state)
  : option state :=
  let st := Serial_println (SerialStr "Moving to limit...") st in
  moveToLimit_loop spd ws (moveToLimit_reset st).

End Sketch.


(** ** Start-up (main.cpp 28-33 and 47-55)

    Globals are zero-initialised; [setup] assigns the same values again (pin
    modes and interrupt registration leave no trace in the state). *)

Section Startup.
Context {B : Build}.

Definition power_on : state :=
  mkState (replicate NUMBER_OF_ACTUATORS (mkActuatorData 0 0 0)) 0
          (replicate NUMBER_OF_ACTUATORS 0) 0 [] [].

(** Lines 49 and 54: the two assignments for actuator [i]. *)
Definition setup_actuator (i : nat) (st : state) : state :=
  let st := with_actuators (<[i := mkActuatorData 0 0 0]> (actuators st)) st in
  with_lastDebounceTime (<[i := 0]> (lastDebounceTime st)) st.

Definition setup (st : state) : state :=
  for_loop NUMBER_OF_ACTUATORS setup_actuator st.

End Startup.

(** ** Executions

    The sketch runs as one main thread preempted by the hall-sensor
    interrupts.  An execution is the sequence of the things that happen, the
    main thread cut at its loops: an interrupt can fall before or after any
    pass of a loop of [moveToLimit] and before or after a call of
    [driveActuators].  [Command] is the dispatcher outside the sketch setting
    [direction]. *)

Section Executions.
Context {B : Build}.

Inductive event :=
| Edge (i : nat) (T1 T2 : Z)
| Command (d : Z)
| Drive (T1 T2 : Z)
| SeekReset
| SeekSnapshot
| SeekSpin (spd : Z).

Definition exec (st : state) (e : event) : state :=
  match e with
  | Edge i T1 T2 => counter i T1 T2 st
  | Command d => with_direction d st
  | Drive T1 T2 => driveActuators T1 T2 st
  | SeekReset => moveToLimit_reset st
  | SeekSnapshot => moveToLimit_snapshot st
  | SeekSpin spd => moveToLimit_spin spd st
  end.

Definition run (evs : list event) (st : state) : state := fold_left exec evs st.

(** The edges of actuator [i] its handler accepts in an execution from [st],
    each with the times of its two clock readings. *)
Fixpoint accepted_edges (i : nat) (evs : list event) (st : state) : list (Z * Z) :=
  match evs with
  | [] => []
  | e :: evs' =>
      match e with
      | Edge j T1 T2 =>
          if bool_decide (j = i) && debounce_elapsed i T1 st
          then (T1, T2) :: accepted_edges i evs' (exec st e)
          else accepted_edges i evs' (exec st e)
      | _ => accepted_edges i evs' (exec st e)
      end
  end.

(** The clock readings the handler of actuator [i] makes, in order. *)
Fixpoint edge_clock (i : nat) (evs : list event) : list Z :=
  match evs with
  | [] => []
  | Edge j T1 T2 :: evs' =>
      if bool_decide (j = i) then T1 :: T2 :: edge_clock i evs' else edge_clock i evs'
  | _ :: evs' => edge_clock i evs'
  end.

(** Of two accepted edges, each given by its two clock readings: [b] passed
    its test more than the debounce delay after the timestamp stored for
    [a]. *)
Definition debounced (a b : Z * Z) : Prop :=
  a.1 <= a.2 /\ a.2 + FALSE_PULSE_DELAY < b.1 /\ b.1 <= b.2.

End Executions.

(** The sum of all step counts, as a mathematical integer. *)
Definition sum_steps (st : state) : Z := foldr Z.add 0 (steps <$> actuators st).

(** A state with the given step counts and the other fields set to values
    that do not matter. *)
Definition state_of_steps (ss : list Z) (d : Z) : state :=
  mkState ((fun s => mkActuatorData 0 s 0) <$> ss) d (replicate (length ss) 0) 0 [] [].

(** A state with the step counts and direction of Scenario A in which
    every other field has been used before. *)
Definition used_state : state :=
  mkState [mkActuatorData 7 100 3; mkActuatorData 9 80 4] 1 [5; 6] 77
          [(9, 1)] [SerialLn].

(** The sum [f 0 + ... + f (n-1)], accumulated in index order. *)
Definition partial_sum (f : nat -> Z) (n : nat) : Z :=
  for_loop n (fun i t => t + f i) 0.

Section Laws.
Context {B : Build}.

(** The law C1 states, for the average [driveActuators] computes from
    [st]. *)
Definition floor_law (st : state) : Prop :=
  avgSteps st * Z.of_nat NUMBER_OF_ACTUATORS <= sum_steps st
  < (avgSteps st + 1) * Z.of_nat NUMBER_OF_ACTUATORS.

(** The same law mirrored, as truncation gives it for a sum below zero. *)
Definition ceil_law (st : state) : Prop :=
  (avgSteps st - 1) * Z.of_nat NUMBER_OF_ACTUATORS < sum_steps st
  <= avgSteps st * Z.of_nat NUMBER_OF_ACTUATORS.

End Laws.

Section Views.
Context {B : Build}.

(** The two [analogWrite] calls that route [spd] for actuator [i] when the
    direction is [d]: the forward pin first, then the reverse pin. *)
Definition channel_writes (d : Z) (i : nat) (spd : Z) : list (Z * Z) :=
  [(FPWM !!! i, if d =? 1 then spd else 0); (RPWM !!! i, if d =? -1 then spd else 0)].

(** What reading [actuators[i].speed] gives right after [v] was assigned to
    it. *)
Definition speed_readback (st : state) (i : nat) (v : Z) : Z :=
  speed (actuator (set_speed i v st) i).

(** The value line 84 assigns to [actuators[i].speed] in a call from [st]. *)
Definition speed_of (st : state) (i : nat) : Z := drive_speed (offset_of st i).

(** What no pass of the second loop of [driveActuators] changes. *)
Definition drive_frame (st s : state) : Prop :=
  steps <$> actuators s = steps <$> actuators st /\
  prevSteps <$> actuators s = prevSteps <$> actuators st /\
  length (actuators s) = length (actuators st) /\
  direction s = direction st /\
  lastDebounceTime s = lastDebounceTime st.

(** The number of passes of the busy-wait body in a dwell window. *)
Fixpoint spins (w : list dwell_item) : nat :=
  match w with
  | [] => 0
  | Spin :: w' => S (spins w')
  | Irq _ _ _ :: w' => spins w'
  end.

(** C6 as stated, for one edge of actuator [i]: when the edge is accepted
    the count moves by the signed value of [direction], as integers. *)
Definition counts_exactly (i : nat) (T1 T2 : Z) (st : state) : Prop :=
  debounce_elapsed i T1 st = true ->
  steps (actuator (counter i T1 T2 st) i) = steps (actuator st i) + direction st.

(** The integers a PWM channel takes. *)
Definition pwm_range (v : Z) : Prop := 0 <= v <= 255.

End Views.

(** ** Views of the logger, of executions and of dwell windows *)

Section MoreViews.
Context {B : Build}.

(** The test of line 108, made at time [T1]. *)
Definition log_due (T1 : Z) (st : state) : bool :=
  sub_ulong (millis T1) (lastLogTime st) >=? 1000.

(** What lines 111-118 print for the actuators of [st]. *)
Definition status_line (st : state) : list serial_item :=
  [SerialStr "Actuator 1 speed: "; SerialNum (speed (actuator st 0));
   SerialStr " | Pos: "; SerialNum (steps (actuator st 0));
   SerialStr " | Actuator 2 speed: "; SerialNum (speed (actuator st 1));
   SerialStr " | Pos: "; SerialNum (steps (actuator st 1)); SerialLn].

(** The calls of [driveActuators] in an execution from [st] that print a
    status line, each with the times of its two clock readings. *)
Fixpoint logged_ticks (evs : list event) (st : state) : list (Z * Z) :=
  match evs with
  | [] => []
  | e :: evs' =>
      match e with
      | Drive T1 T2 =>
          if log_due T1 (drive_all st)
          then (T1, T2) :: logged_ticks evs' (exec st e)
          else logged_ticks evs' (exec st e)
      | _ => logged_ticks evs' (exec st e)
      end
  end.

(** The clock readings the logger makes in an execution, in order. *)
Fixpoint tick_clock (evs : list event) : list Z :=
  match evs with
  | [] => []
  | Drive T1 T2 :: evs' => T1 :: T2 :: tick_clock evs'
  | _ :: evs' => tick_clock evs'
  end.

(** Of two printed lines, each given by the two clock readings of its call:
    [b] was found due at least a second after the time stored for [a]. *)
Definition log_spaced (a b : Z * Z) : Prop :=
  a.1 <= a.2 /\ a.2 + 1000 <= b.1 /\ b.1 <= b.2.

(** The events that neither set [direction] nor zero the counters. *)
Definition counting (e : event) : bool :=
  match e with
  | Command _ | SeekReset => false
  | _ => true
  end.

(** A dwell window in which no sensor interrupt falls. *)
Definition quiet (w : list dwell_item) : bool :=
  forallb (fun it => match it with Spin => true | Irq _ _ _ => false end) w.

(** What the loops of [moveToLimit] and the handlers that preempt them leave
    alone: the stored speeds, the number of actuators, the direction and
    the logger. *)
Definition seek_frame (st st' : state) : Prop :=
  speed <$> actuators st' = speed <$> actuators st /\
  length (actuators st') = length (actuators st) /\
  direction st' = direction st /\
  lastLogTime st' = lastLogTime st /\
  serial st' = serial st.

(** The speed formula of the design, on mathematical integers. *)
Definition ideal_speed (avg s d : Z) : Z :=
  Z.min (Z.abs (BASE_SPEED + (avg - s) * OFFSET_MULTIPLIER * d)) 255.

End MoreViews.

(** * Properties *)

(** ** Machine integers *)

Section MachineIntFacts.
Import MachineInt.

Lemma pow2_double (w : Z) : 0 < w -> 2 ^ w = 2 * 2 ^ (w - 1).
Proof.
  intros Hw. replace w with (1 + (w - 1)) at 1 by lia.
  rewrite Z.pow_add_r by lia. reflexivity.
Qed.

Lemma pow2_half_pos (w : Z) : 0 < w -> 0 < 2 ^ (w - 1).
Proof. intros Hw. apply Z.pow_pos_nonneg; lia. Qed.

Lemma swrap_range (w z : Z) : 0 < w -> in_srange w (swrap w z).
Proof.
  intros Hw. unfold in_srange, smin, smax, swrap.
  pose proof (pow2_double w Hw) as Hd.
  pose proof (pow2_half_pos w Hw) as Hp.
  pose proof (Z.mod_pos_bound (z + 2 ^ (w - 1)) (2 ^ w) ltac:(lia)).
  lia.
Qed.

Lemma swrap_small (w z : Z) : 0 < w -> in_srange w z -> swrap w z = z.
Proof.
  intros Hw [Hlo Hhi]. unfold smin, smax in *. unfold swrap.
  pose proof (pow2_double w Hw) as Hd.
  rewrite Z.mod_small by lia. lia.
Qed.

Lemma swrap_add_l (w a b : Z) : swrap w (swrap w a + b) = swrap w (a + b).
Proof.
  unfold swrap. f_equal.
  replace ((a + 2 ^ (w - 1)) mod 2 ^ w - 2 ^ (w - 1) + b + 2 ^ (w - 1))
    with ((a + 2 ^ (w - 1)) mod 2 ^ w + b) by lia.
  rewrite Zplus_mod_idemp_l. f_equal. lia.
Qed.

Lemma uwrap_sub (w a b : Z) : uwrap w (uwrap w a - uwrap w b) = uwrap w (a - b).
Proof.
  unfold uwrap. rewrite Zminus_mod_idemp_l, Zminus_mod_idemp_r. reflexivity.
Qed.

Lemma uwrap_le (w a : Z) : 0 <= a -> uwrap w a <= a.
Proof.
  intros Ha. unfold uwrap.
  destruct (Z.eq_dec (2 ^ w) 0) as [E | E].
  - rewrite E, Z.mod_0_r. lia.
  - apply Z.mod_le; [lia |].
    pose proof (Z.pow_nonneg 2 w ltac:(lia)). lia.
Qed.

(** A range that fits a 16-bit [int] fits every [int]. *)
Lemma int16_in_srange (w z : Z) : 16 <= w -> -32768 <= z <= 32767 -> in_srange w z.
Proof.
  intros Hw Hz. unfold in_srange, smin, smax.
  assert (2 ^ 15 <= 2 ^ (w - 1)) by (apply Z.pow_le_mono_r; lia).
  change (2 ^ 15) with 32768 in *. lia.
Qed.

End MachineIntFacts.

Global Arguments swrap : simpl never.
Global Arguments uwrap : simpl never.

(** ** Loops and field updates *)

Section LoopFacts.

Lemma for_loop_invariant {S : Type} (P : S -> Prop) (n : nat) (body : nat -> S -> S) (s : S) :
  P s -> (forall i s', P s' -> P (body i s')) -> P (for_loop n body s).
Proof.
  intros H0 Hstep. induction n as [| k IH]; simpl; [exact H0 | apply Hstep, IH].
Qed.

Lemma for_loop_ext {S : Type} (n : nat) (f g : nat -> S -> S) (s : S) :
  (forall i s', (i < n)%nat -> f i s' = g i s') -> for_loop n f s = for_loop n g s.
Proof.
  induction n as [| k IH]; intros H; simpl; [reflexivity |].
  rewrite IH by (intros; apply H; lia). apply H. lia.
Qed.

Lemma fmap_alter_same {A C : Type} (f : A -> C) (g : A -> A) (i : nat) (l : list A) :
  (forall x, f (g x) = f x) -> f <$> alter g i l = f <$> l.
Proof.
  intros Hfg. apply list_eq. intros j.
  rewrite !list_lookup_fmap.
  destruct (decide (i = j)) as [-> | Hne].
  - rewrite list_lookup_alter_eq. destruct (l !! j); simpl; [by rewrite Hfg | done].
  - by rewrite list_lookup_alter_ne.
Qed.

Lemma partial_sum_ext (f g : nat -> Z) (n : nat) :
  (forall i, (i < n)%nat -> f i = g i) -> partial_sum f n = partial_sum g n.
Proof.
  intros H. unfold partial_sum. apply for_loop_ext. intros i t Hi. by rewrite H.
Qed.

Lemma foldr_add_snoc (l : list Z) (x : Z) :
  foldr Z.add 0 (l ++ [x]) = foldr Z.add 0 l + x.
Proof. induction l as [| y l IH]; simpl; lia. Qed.

Lemma partial_sum_list (l : list ActuatorData) :
  partial_sum (fun i => steps (l !!! i)) (length l) = foldr Z.add 0 (steps <$> l).
Proof.
  induction l as [| x l IH] using rev_ind; [reflexivity |].
  rewrite length_app, Nat.add_1_r, fmap_app. cbn [fmap list_fmap].
  rewrite foldr_add_snoc. unfold partial_sum in *. simpl. f_equal.
  - rewrite <- IH. apply for_loop_ext. intros i t Hi.
    by rewrite lookup_total_app_l.
  - rewrite lookup_total_app_r by lia. by rewrite Nat.sub_diag.
Qed.

Lemma flat_map_seq_ext {A : Type} (f g : nat -> list A) (n : nat) :
  (forall i, (i < n)%nat -> f i = g i) ->
  flat_map f (seq 0 n) = flat_map g (seq 0 n).
Proof.
  induction n as [| k IH]; intros H; [reflexivity |].
  rewrite seq_S, !flat_map_app, IH by (intros; apply H; lia).
  cbn. by rewrite H by lia.
Qed.

End LoopFacts.

(** ** The average of [driveActuators] *)

Section Average.
Context {B : Build}.

Lemma totalSteps_partial_sum (st : state) (n : nat) :
  for_loop n (fun i total => add_long total (steps (actuator st i))) 0
  = swrap long_bits (partial_sum (fun i => steps (actuator st i)) n).
Proof.
  induction n as [| k IH]; [reflexivity |].
  simpl. rewrite IH. unfold add_long, partial_sum. simpl.
  apply swrap_add_l.
Qed.

(** The accumulator of lines 74-78 is the sum of the counts, wrapped to a
    [long]. *)
Lemma totalSteps_sum (st : state) :
  length (actuators st) = NUMBER_OF_ACTUATORS ->
  totalSteps st = swrap long_bits (sum_steps st).
Proof.
  intros Hlen. unfold totalSteps, sum_steps.
  rewrite totalSteps_partial_sum, <- Hlen. unfold actuator.
  by rewrite partial_sum_list.
Qed.

Lemma totalSteps_in_range (st : state) : in_srange long_bits (totalSteps st).
Proof.
  unfold totalSteps. rewrite totalSteps_partial_sum. by apply swrap_range.
Qed.

(** Dividing a [long] by a positive count does not leave the range of
    [long]: the wrap in [div_long] is the identity there. *)
Lemma div_long_pos (a n : Z) :
  in_srange long_bits a -> 1 <= n -> div_long a n = Z.quot a n.
Proof.
  intros [Hlo Hhi] Hn. unfold div_long. apply swrap_small; [done |].
  unfold in_srange, smin, smax in *.
  pose proof (Z.quot_rem' a n) as Hqr.
  destruct (Z_le_gt_dec 0 a) as [Ha | Ha].
  - pose proof (Z.rem_bound_pos a n Ha ltac:(lia)). nia.
  - pose proof (Z.rem_bound_pos_neg a n ltac:(lia) ltac:(lia)). nia.
Qed.

(** [Z.quot] rounds toward zero: the two halves of the division law. *)
Lemma quot_trunc_law (a n : Z) :
  1 <= n ->
  (0 <= a -> Z.quot a n * n <= a < (Z.quot a n + 1) * n) /\
  (a <= 0 -> (Z.quot a n - 1) * n < a <= Z.quot a n * n).
Proof.
  intros Hn. pose proof (Z.quot_rem' a n) as Hqr. split; intros Ha.
  - pose proof (Z.rem_bound_pos a n Ha ltac:(lia)). lia.
  - destruct (Z.eq_dec a 0) as [-> | Hne].
    + rewrite Z.quot_0_l by lia. lia.
    + pose proof (Z.rem_bound_pos_neg a n ltac:(lia) ltac:(lia)). lia.
Qed.

End Average.

(** ** Frame facts of the outputs and of the logger *)

Section Frames.
Context {B : Build}.

Lemma logActuatorStatus_actuators T1 T2 st :
  actuators (logActuatorStatus T1 T2 st) = actuators st.
Proof. unfold logActuatorStatus. by destruct (_ >=? _). Qed.

Lemma logActuatorStatus_direction T1 T2 st :
  direction (logActuatorStatus T1 T2 st) = direction st.
Proof. unfold logActuatorStatus. by destruct (_ >=? _). Qed.

Lemma logActuatorStatus_pwm T1 T2 st :
  pwm (logActuatorStatus T1 T2 st) = pwm st.
Proof. unfold logActuatorStatus. by destruct (_ >=? _). Qed.

Lemma logActuatorStatus_lastDebounceTime T1 T2 st :
  lastDebounceTime (logActuatorStatus T1 T2 st) = lastDebounceTime st.
Proof. unfold logActuatorStatus. by destruct (_ >=? _). Qed.

Lemma steps_actuator st i :
  steps (actuator st i) = default 0 ((steps <$> actuators st) !! i).
Proof.
  unfold actuator. rewrite list_lookup_total_alt, list_lookup_fmap.
  by destruct (actuators st !! i).
Qed.

Lemma actuator_lookup st i a : actuators st !! i = Some a -> actuator st i = a.
Proof. intros H. unfold actuator. by apply list_lookup_total_correct. Qed.

Lemma speed_readback_eq st i v :
  speed_readback st i v = if bool_decide (i < length (actuators st))%nat then v else 0.
Proof.
  unfold speed_readback, actuator, set_speed. cbn.
  case_bool_decide as Hi.
  - by rewrite list_lookup_total_alter_eq.
  - rewrite list_lookup_total_alt, list_lookup_alter_eq.
    by rewrite lookup_ge_None_2 by lia.
Qed.

(** One pass of the second loop of [driveActuators]. *)
Lemma drive_actuator_actuators avg i st :
  actuators (drive_actuator avg i st)
  = alter (fun a => mkActuatorData
                      (drive_speed (offset avg (steps (actuator st i)) (direction st)))
                      (steps a) (prevSteps a)) i (actuators st).
Proof.
  unfold drive_actuator. cbn.
  destruct (direction st =? 1); [done |]. by destruct (direction st =? -1).
Qed.

Lemma drive_actuator_direction avg i st :
  direction (drive_actuator avg i st) = direction st.
Proof.
  unfold drive_actuator. cbn.
  destruct (direction st =? 1); [done |]. by destruct (direction st =? -1).
Qed.

Lemma drive_actuator_lastDebounceTime avg i st :
  lastDebounceTime (drive_actuator avg i st) = lastDebounceTime st.
Proof.
  unfold drive_actuator. cbn.
  destruct (direction st =? 1); [done |]. by destruct (direction st =? -1).
Qed.

Lemma drive_actuator_pwm avg i st :
  pwm (drive_actuator avg i st)
  = pwm st ++ channel_writes (direction st) i
      (speed_readback st i (drive_speed (offset avg (steps (actuator st i)) (direction st)))).
Proof.
  unfold drive_actuator, channel_writes, speed_readback. cbn.
  destruct (direction st =? 1) eqn:E1.
  - apply Z.eqb_eq in E1. rewrite E1. cbn. by rewrite <- app_assoc.
  - destruct (direction st =? -1) eqn:E2; cbn; by rewrite <- app_assoc.
Qed.

End Frames.

(** ** The second loop of [driveActuators] *)

Section DriveLoop.
Context {B : Build}.

Lemma drive_loop_frame avg n st :
  drive_frame st (for_loop n (drive_actuator avg) st).
Proof.
  apply for_loop_invariant; [by repeat split |].
  intros i s (Hs & Hp & Hl & Hd & Ht). unfold drive_frame.
  rewrite drive_actuator_actuators, drive_actuator_direction,
    drive_actuator_lastDebounceTime, length_alter.
  rewrite !fmap_alter_same by done. by repeat split.
Qed.

Lemma drive_frame_steps st s i :
  drive_frame st s -> steps (actuator s i) = steps (actuator st i).
Proof. intros (Hs & _). by rewrite !steps_actuator, Hs. Qed.

Lemma drive_loop_pwm avg n st :
  pwm (for_loop n (drive_actuator avg) st)
  = pwm st ++ flat_map (fun i => channel_writes (direction st) i
                 (speed_readback st i
                    (drive_speed (offset avg (steps (actuator st i)) (direction st)))))
               (seq 0 n).
Proof.
  induction n as [| k IH]; [by rewrite app_nil_r |].
  rewrite seq_S, flat_map_app. cbn [for_loop flat_map Nat.add].
  pose proof (drive_loop_frame avg k st) as Hf.
  rewrite drive_actuator_pwm, IH, <- app_assoc, app_nil_r.
  rewrite (drive_frame_steps _ _ _ Hf).
  destruct Hf as (_ & _ & Hl & Hd & _).
  by rewrite Hd, !speed_readback_eq, Hl.
Qed.

Lemma drive_loop_lookup avg n st j :
  actuators (for_loop n (drive_actuator avg) st) !! j
  = (fun a => if bool_decide (j < n)%nat
              then mkActuatorData (drive_speed (offset avg (steps a) (direction st)))
                                  (steps a) (prevSteps a)
              else a) <$> actuators st !! j.
Proof.
  induction n as [| k IH].
  - cbn. by destruct (actuators st !! j).
  - cbn [for_loop]. rewrite drive_actuator_actuators.
    pose proof (drive_loop_frame avg k st) as Hf.
    rewrite (drive_frame_steps _ _ _ Hf).
    destruct Hf as (_ & _ & _ & Hd & _). rewrite Hd.
    destruct (decide (k = j)) as [-> | Hne].
    + rewrite list_lookup_alter_eq, IH.
      rewrite bool_decide_eq_false_2 by lia.
      rewrite bool_decide_eq_true_2 by lia.
      destruct (actuators st !! j) as [a |] eqn:Ha; [| done].
      cbn. by rewrite (actuator_lookup _ _ _ Ha).
    + rewrite list_lookup_alter_ne, IH by done.
      destruct (actuators st !! j) as [a |]; [| done]. cbn.
      destruct (decide (j < k)%nat).
      * by rewrite !bool_decide_eq_true_2 by lia.
      * by rewrite !bool_decide_eq_false_2 by lia.
Qed.

(** The PWM log of one call. *)
Lemma driveActuators_pwm T1 T2 st :
  length (actuators st) = NUMBER_OF_ACTUATORS ->
  pwm (driveActuators T1 T2 st)
  = pwm st ++ flat_map (fun i => channel_writes (direction st) i (speed_of st i))
               (seq 0 NUMBER_OF_ACTUATORS).
Proof.
  intros Hlen. unfold driveActuators, drive_all.
  rewrite logActuatorStatus_pwm, drive_loop_pwm. f_equal.
  apply flat_map_seq_ext. intros i Hi.
  rewrite speed_readback_eq, bool_decide_eq_true_2 by lia.
  unfold speed_of, offset_of. reflexivity.
Qed.

(** The speed fields after one call. *)
Lemma driveActuators_speed T1 T2 st i :
  (i < NUMBER_OF_ACTUATORS)%nat ->
  length (actuators st) = NUMBER_OF_ACTUATORS ->
  speed (actuator (driveActuators T1 T2 st) i) = speed_of st i.
Proof.
  intros Hi Hlen. unfold driveActuators, drive_all.
  destruct (lookup_lt_is_Some_2 (actuators st) i ltac:(lia)) as [a Ha].
  pose proof (drive_loop_lookup (avgSteps st) NUMBER_OF_ACTUATORS st i) as Hl.
  rewrite Ha, bool_decide_eq_true_2 in Hl by lia. cbn in Hl.
  unfold actuator at 1. rewrite logActuatorStatus_actuators.
  rewrite (list_lookup_total_correct _ _ _ Hl). cbn.
  unfold speed_of, offset_of. by rewrite (actuator_lookup _ _ _ Ha).
Qed.

End DriveLoop.

(** ** Agreement of two calls of [driveActuators] *)

Section Agreement.
Context {B : Build}.

Lemma totalSteps_agree st1 st2 :
  steps <$> actuators st1 = steps <$> actuators st2 -> totalSteps st1 = totalSteps st2.
Proof.
  intros Hs. unfold totalSteps. apply for_loop_ext. intros i t _.
  by rewrite !steps_actuator, Hs.
Qed.

Lemma offset_of_agree st1 st2 i :
  steps <$> actuators st1 = steps <$> actuators st2 ->
  direction st1 = direction st2 ->
  offset_of st1 i = offset_of st2 i.
Proof.
  intros Hs Hd. unfold offset_of, avgSteps.
  by rewrite (totalSteps_agree _ _ Hs), !steps_actuator, Hs, Hd.
Qed.

Lemma offsets_agree st1 st2 :
  steps <$> actuators st1 = steps <$> actuators st2 ->
  direction st1 = direction st2 ->
  offsets st1 = offsets st2.
Proof.
  intros Hs Hd. unfold offsets. apply list_fmap_ext. intros i x _.
  by apply offset_of_agree.
Qed.

Lemma driveActuators_length T1 T2 st :
  length (actuators (driveActuators T1 T2 st)) = length (actuators st).
Proof.
  unfold driveActuators, drive_all. rewrite logActuatorStatus_actuators.
  by destruct (drive_loop_frame (avgSteps st) NUMBER_OF_ACTUATORS st) as (_ & _ & Hl & _).
Qed.

Lemma speeds_agree T1 T2 T1' T2' st1 st2 :
  length (actuators st1) = NUMBER_OF_ACTUATORS ->
  steps <$> actuators st1 = steps <$> actuators st2 ->
  direction st1 = direction st2 ->
  speed <$> actuators (driveActuators T1 T2 st1)
  = speed <$> actuators (driveActuators T1' T2' st2).
Proof.
  intros Hl1 Hs Hd.
  assert (length (actuators st2) = NUMBER_OF_ACTUATORS) as Hl2.
  { rewrite <- Hl1, <- (length_fmap steps (actuators st2)), <- Hs. by rewrite length_fmap. }
  apply (list_eq_same_length _ _ NUMBER_OF_ACTUATORS).
  - by rewrite length_fmap, driveActuators_length.
  - by rewrite length_fmap, driveActuators_length.
  - intros i x y Hi Hx Hy.
    rewrite list_lookup_fmap in Hx, Hy.
    destruct (actuators (driveActuators T1 T2 st1) !! i) as [a1 |] eqn:E1; [| done].
    destruct (actuators (driveActuators T1' T2' st2) !! i) as [a2 |] eqn:E2; [| done].
    cbn in Hx, Hy. simplify_eq.
    rewrite <- (actuator_lookup _ _ _ E1), <- (actuator_lookup _ _ _ E2).
    rewrite !driveActuators_speed by done.
    unfold speed_of. by rewrite (offset_of_agree st1 st2).
Qed.

Lemma pwm_agree T1 T2 T1' T2' st1 st2 :
  length (actuators st1) = NUMBER_OF_ACTUATORS ->
  steps <$> actuators st1 = steps <$> actuators st2 ->
  direction st1 = direction st2 ->
  exists w, pwm (driveActuators T1 T2 st1) = pwm st1 ++ w /\
            pwm (driveActuators T1' T2' st2) = pwm st2 ++ w.
Proof.
  intros Hl1 Hs Hd.
  assert (length (actuators st2) = NUMBER_OF_ACTUATORS) as Hl2.
  { rewrite <- Hl1, <- (length_fmap steps (actuators st2)), <- Hs. by rewrite length_fmap. }
  eexists. split; [by apply driveActuators_pwm |].
  rewrite driveActuators_pwm by done. f_equal.
  apply flat_map_seq_ext. intros i _.
  unfold speed_of. by rewrite Hd, (offset_of_agree st1 st2).
Qed.

Lemma driveActuators_keeps_steps T1 T2 st :
  steps <$> actuators (driveActuators T1 T2 st) = steps <$> actuators st /\
  prevSteps <$> actuators (driveActuators T1 T2 st) = prevSteps <$> actuators st /\
  direction (driveActuators T1 T2 st) = direction st /\
  lastDebounceTime (driveActuators T1 T2 st) = lastDebounceTime st.
Proof.
  unfold driveActuators, drive_all.
  rewrite logActuatorStatus_actuators, logActuatorStatus_direction,
    logActuatorStatus_lastDebounceTime.
  destruct (drive_loop_frame (avgSteps st) NUMBER_OF_ACTUATORS st)
    as (Hs & Hp & _ & Hd & Ht).
  done.
Qed.

(** Two calls in a row, nothing happening in between: the second repeats
    the first. *)
Lemma driveActuators_twice T1 T2 T3 T4 st :
  length (actuators st) = NUMBER_OF_ACTUATORS ->
  let st1 := driveActuators T1 T2 st in
  let st2 := driveActuators T3 T4 st1 in
  offsets st1 = offsets st /\
  actuators st2 = actuators st1 /\
  exists w, pwm st1 = pwm st ++ w /\ pwm st2 = pwm st1 ++ w.
Proof.
  intros Hl st1 st2.
  destruct (driveActuators_keeps_steps T1 T2 st) as (Hs & Hp & Hd & _).
  destruct (driveActuators_keeps_steps T3 T4 st1) as (Hs' & Hp' & _).
  assert (length (actuators st1) = NUMBER_OF_ACTUATORS) as Hl1
    by (unfold st1; by rewrite driveActuators_length).
  split; [by apply offsets_agree |]. split.
  - pose proof (speeds_agree T3 T4 T1 T2 st1 st Hl1 Hs Hd) as Hv.
    fold st1 st2 in Hv, Hs', Hp'.
    apply list_eq. intros i.
    apply (f_equal (fun l => l !! i)) in Hv, Hs', Hp'.
    rewrite !list_lookup_fmap in Hv, Hs', Hp'.
    destruct (actuators st2 !! i) as [[v2 s2 p2] |],
             (actuators st1 !! i) as [[v1 s1 p1] |]; by simplify_eq/=.
  - destruct (pwm_agree T1 T2 T3 T4 st st1 Hl (eq_sym Hs) (eq_sym Hd)) as (w & H1 & H2).
    by exists w.
Qed.

End Agreement.

(** ** The interrupt handlers *)

Section Handlers.
Context {B : Build}.

(** The test of the handler, read on the real clock: when it passes, more
    than the debounce delay has gone by since the stored time. *)
Lemma debounce_elapsed_real i T1 L st :
  lastDebounceTime st !!! i = millis L ->
  L <= T1 ->
  debounce_elapsed i T1 st = true ->
  L + FALSE_PULSE_DELAY < T1.
Proof.
  intros HL Hle Hacc. unfold debounce_elapsed in Hacc.
  rewrite HL in Hacc. unfold sub_ulong, millis in Hacc.
  rewrite uwrap_sub in Hacc. apply Z.gtb_lt in Hacc.
  pose proof (uwrap_le long_bits (T1 - L) ltac:(lia)). lia.
Qed.

Lemma counter_rejected i T1 T2 st :
  debounce_elapsed i T1 st = false -> counter i T1 T2 st = st.
Proof. intros H. unfold counter. by rewrite H. Qed.

Lemma counter_accepted i T1 T2 st :
  debounce_elapsed i T1 st = true ->
  counter i T1 T2 st
  = mkState
      (alter (fun a => mkActuatorData (speed a)
                         (add_long (steps (actuator st i)) (direction st))
                         (prevSteps a)) i (actuators st))
      (direction st) (<[i := millis T2]> (lastDebounceTime st))
      (lastLogTime st) (pwm st) (serial st).
Proof. intros H. unfold counter. by rewrite H. Qed.

Lemma counter_direction i T1 T2 st : direction (counter i T1 T2 st) = direction st.
Proof. unfold counter. by destruct (debounce_elapsed i T1 st). Qed.

Lemma counter_pwm i T1 T2 st : pwm (counter i T1 T2 st) = pwm st.
Proof. unfold counter. by destruct (debounce_elapsed i T1 st). Qed.

Lemma counter_prevSteps i T1 T2 st :
  prevSteps <$> actuators (counter i T1 T2 st) = prevSteps <$> actuators st.
Proof.
  unfold counter. destruct (debounce_elapsed i T1 st); [| done].
  cbn. by rewrite fmap_alter_same.
Qed.

Lemma counter_length i T1 T2 st :
  length (actuators (counter i T1 T2 st)) = length (actuators st).
Proof.
  unfold counter. destruct (debounce_elapsed i T1 st); [| done].
  cbn. by rewrite length_alter.
Qed.

Lemma counter_timers_length i T1 T2 st :
  length (lastDebounceTime (counter i T1 T2 st)) = length (lastDebounceTime st).
Proof.
  unfold counter. destruct (debounce_elapsed i T1 st); [| done].
  cbn. by rewrite length_insert.
Qed.

(** A handler leaves the timers of the other actuators alone. *)
Lemma counter_other_timer i j T1 T2 st :
  i <> j -> lastDebounceTime (counter i T1 T2 st) !!! j = lastDebounceTime st !!! j.
Proof.
  intros Hne. unfold counter. destruct (debounce_elapsed i T1 st); [| done].
  cbn. by rewrite list_lookup_total_insert_ne.
Qed.

End Handlers.

(** ** The loops of [moveToLimit] *)

Section Seek.
Context {B : Build}.

Lemma moveToLimit_spin_frame spd st :
  let st' := moveToLimit_spin spd st in
  actuators st' = actuators st /\ direction st' = direction st /\
  lastDebounceTime st' = lastDebounceTime st.
Proof.
  unfold moveToLimit_spin.
  apply (for_loop_invariant (fun s => actuators s = actuators st /\
    direction s = direction st /\ lastDebounceTime s = lastDebounceTime st)); [done |].
  by intros i s (? & ? & ?).
Qed.

Lemma moveToLimit_write_pwm spd i st :
  pwm (moveToLimit_write spd i st) = pwm st ++ channel_writes (direction st) i spd.
Proof. unfold moveToLimit_write, channel_writes. cbn. by rewrite <- app_assoc. Qed.

Lemma moveToLimit_spin_pwm spd st :
  pwm (moveToLimit_spin spd st)
  = pwm st ++ flat_map (fun i => channel_writes (direction st) i spd)
               (seq 0 NUMBER_OF_ACTUATORS).
Proof.
  unfold moveToLimit_spin.
  induction NUMBER_OF_ACTUATORS as [| k IH]; [by rewrite app_nil_r |].
  rewrite seq_S, flat_map_app. cbn [for_loop flat_map Nat.add].
  rewrite moveToLimit_write_pwm, IH, <- app_assoc, app_nil_r.
  assert (direction (for_loop k (moveToLimit_write spd) st) = direction st) as ->;
    [| done].
  by apply (for_loop_invariant (fun s => direction s = direction st)).
Qed.

Lemma snapshot_frame n st :
  let st' := for_loop n (fun i st => set_prevSteps i (steps (actuator st i)) st) st in
  steps <$> actuators st' = steps <$> actuators st /\
  length (actuators st') = length (actuators st) /\
  direction st' = direction st /\
  lastDebounceTime st' = lastDebounceTime st.
Proof.
  apply (for_loop_invariant (fun s => steps <$> actuators s = steps <$> actuators st /\
    length (actuators s) = length (actuators st) /\
    direction s = direction st /\ lastDebounceTime s = lastDebounceTime st)); [done |].
  intros i s (Hs & Hl & Hd & Ht). cbn.
  by rewrite fmap_alter_same, length_alter.
Qed.

Lemma snapshot_lookup n st j :
  actuators (for_loop n (fun i st => set_prevSteps i (steps (actuator st i)) st) st) !! j
  = (fun a => if bool_decide (j < n)%nat
              then mkActuatorData (speed a) (steps a) (steps a) else a)
      <$> actuators st !! j.
Proof.
  induction n as [| k IH].
  - cbn. by destruct (actuators st !! j).
  - cbn [for_loop]. unfold set_prevSteps at 1. cbn [actuators with_actuators].
    destruct (decide (k = j)) as [-> | Hne].
    + rewrite list_lookup_alter_eq, IH.
      rewrite bool_decide_eq_false_2 by lia.
      rewrite bool_decide_eq_true_2 by lia.
      destruct (actuators st !! j) as [a |] eqn:Ha; [| done]. cbn.
      pose proof (snapshot_frame j st) as (Hs & _). cbn in Hs.
      rewrite steps_actuator, Hs, <- steps_actuator.
      by rewrite (actuator_lookup _ _ _ Ha).
    + rewrite list_lookup_alter_ne, IH by done.
      destruct (actuators st !! j) as [a |]; [| done]. cbn.
      destruct (decide (j < k)%nat).
      * by rewrite !bool_decide_eq_true_2 by lia.
      * by rewrite !bool_decide_eq_false_2 by lia.
Qed.

(** After the snapshot every [prevSteps] holds the count of its actuator;
    the counts themselves are as before. *)
Lemma moveToLimit_snapshot_spec st i :
  (i < NUMBER_OF_ACTUATORS)%nat ->
  length (actuators st) = NUMBER_OF_ACTUATORS ->
  prevSteps (actuator (moveToLimit_snapshot st) i) = steps (actuator st i) /\
  steps (actuator (moveToLimit_snapshot st) i) = steps (actuator st i).
Proof.
  intros Hi Hl. unfold moveToLimit_snapshot.
  destruct (lookup_lt_is_Some_2 (actuators st) i ltac:(lia)) as [a Ha].
  pose proof (snapshot_lookup NUMBER_OF_ACTUATORS st i) as Hk.
  rewrite Ha, bool_decide_eq_true_2 in Hk by lia. cbn in Hk.
  rewrite (actuator_lookup _ _ _ Hk), (actuator_lookup _ _ _ Ha). done.
Qed.

Lemma dwell_step_frame spd st it :
  prevSteps <$> actuators (dwell_step spd st it) = prevSteps <$> actuators st /\
  length (actuators (dwell_step spd st it)) = length (actuators st) /\
  direction (dwell_step spd st it) = direction st.
Proof.
  destruct it as [| i T1 T2]; cbn.
  - by destruct (moveToLimit_spin_frame spd st) as (-> & -> & _).
  - by rewrite counter_prevSteps, counter_length, counter_direction.
Qed.

(** No interrupt and no pass of the busy-wait touches a snapshot. *)
Lemma dwell_frame spd w st :
  prevSteps <$> actuators (dwell spd w st) = prevSteps <$> actuators st /\
  length (actuators (dwell spd w st)) = length (actuators st) /\
  direction (dwell spd w st) = direction st.
Proof.
  unfold dwell. revert st. induction w as [| it w IH]; intros st; [done |].
  cbn. destruct (IH (dwell_step spd st it)) as (-> & -> & ->).
  apply dwell_step_frame.
Qed.

Lemma prevSteps_actuator st i :
  prevSteps (actuator st i) = default 0 ((prevSteps <$> actuators st) !! i).
Proof.
  unfold actuator. rewrite list_lookup_total_alt, list_lookup_fmap.
  by destruct (actuators st !! i).
Qed.

(** [haveStepsChanged] answers false exactly when no scanned actuator
    differs from its snapshot. *)
Lemma haveStepsChanged_from_false i n st :
  haveStepsChanged_from i n st = false <->
  forall k, (i <= k < i + n)%nat -> prevSteps (actuator st k) = steps (actuator st k).
Proof.
  revert i. induction n as [| n IH]; intros i; cbn.
  - split; [intros _ k Hk; lia | done].
  - destruct (prevSteps (actuator st i) =? steps (actuator st i)) eqn:E; cbn.
    + apply Z.eqb_eq in E. rewrite IH. split.
      * intros H k Hk. destruct (decide (k = i)) as [-> | Hne]; [done |].
        apply H. lia.
      * intros H k Hk. apply H. lia.
    + apply Z.eqb_neq in E. split; [done |].
      intros H. destruct E. apply H. lia.
Qed.

Lemma haveStepsChanged_false st :
  haveStepsChanged st = false <->
  forall i, (i < NUMBER_OF_ACTUATORS)%nat ->
            steps (actuator st i) = prevSteps (actuator st i).
Proof.
  unfold haveStepsChanged. rewrite haveStepsChanged_from_false. split.
  - intros H i Hi. symmetry. apply H. lia.
  - intros H k Hk. symmetry. apply H. lia.
Qed.

Lemma haveStepsChanged_true st :
  haveStepsChanged st = true <->
  exists i, (i < NUMBER_OF_ACTUATORS)%nat /\
            steps (actuator st i) <> prevSteps (actuator st i).
Proof.
  split.
  - intros Ht. unfold haveStepsChanged in Ht.
    assert (forall n i, haveStepsChanged_from i n st = true ->
              exists k, (i <= k < i + n)%nat /\
                        steps (actuator st k) <> prevSteps (actuator st k)) as Hgen.
    { induction n as [| n IH]; intros i; cbn; [done |].
      destruct (prevSteps (actuator st i) =? steps (actuator st i)) eqn:E; cbn.
      - intros (k & Hk & Hne)%IH. exists k. split; [lia | done].
      - intros _. apply Z.eqb_neq in E. exists i. split; [lia | congruence]. }
    destruct (Hgen _ _ Ht) as (k & Hk & Hne). exists k. split; [lia | done].
  - intros (i & Hi & Hne).
    destruct (haveStepsChanged st) eqn:E; [done |].
    rewrite haveStepsChanged_false in E. destruct Hne. by apply E.
Qed.

End Seek.

(** ** Executions and the debounce timers *)

Section Debounce.
Context {B : Build}.

Lemma moveToLimit_reset_timers st :
  lastDebounceTime (moveToLimit_reset st) = lastDebounceTime st.
Proof.
  unfold moveToLimit_reset.
  by apply (for_loop_invariant (fun s => lastDebounceTime s = lastDebounceTime st)).
Qed.

(** Only the handler of actuator [i] writes the timer of actuator [i]. *)
Lemma exec_other_timer i st e :
  (forall T1 T2, e <> Edge i T1 T2) ->
  lastDebounceTime (exec st e) !!! i = lastDebounceTime st !!! i.
Proof.
  intros Hne. destruct e as [j T1 T2 | d | T1 T2 | | | spd]; cbn.
  - apply counter_other_timer. intros ->. by apply (Hne T1 T2).
  - done.
  - by destruct (driveActuators_keeps_steps T1 T2 st) as (_ & _ & _ & ->).
  - by rewrite moveToLimit_reset_timers.
  - unfold moveToLimit_snapshot.
    by destruct (snapshot_frame NUMBER_OF_ACTUATORS st) as (_ & _ & _ & ->).
  - by destruct (moveToLimit_spin_frame spd st) as (_ & _ & ->).
Qed.

Lemma exec_timers_length st e :
  length (lastDebounceTime (exec st e)) = length (lastDebounceTime st).
Proof.
  destruct e as [j T1 T2 | d | T1 T2 | | | spd]; cbn.
  - apply counter_timers_length.
  - done.
  - by destruct (driveActuators_keeps_steps T1 T2 st) as (_ & _ & _ & ->).
  - by rewrite moveToLimit_reset_timers.
  - unfold moveToLimit_snapshot.
    by destruct (snapshot_frame NUMBER_OF_ACTUATORS st) as (_ & _ & _ & ->).
  - by destruct (moveToLimit_spin_frame spd st) as (_ & _ & ->).
Qed.

(** Once the timer of actuator [i] holds the reading taken at [L], every
    edge the handler accepts later comes more than the delay after [L]. *)
Lemma accepted_after i evs : forall st L,
  (i < length (lastDebounceTime st))%nat ->
  lastDebounceTime st !!! i = millis L ->
  Forall (fun t => L <= t) (edge_clock i evs) ->
  StronglySorted Z.le (edge_clock i evs) ->
  Forall (fun b => L + FALSE_PULSE_DELAY < b.1 /\ b.1 <= b.2) (accepted_edges i evs st).
Proof.
  induction evs as [| e evs IH]; intros st L Hi HL Hge Hsorted; [constructor |].
  assert ((forall T1 T2, e <> Edge i T1 T2) ->
            edge_clock i (e :: evs) = edge_clock i evs ->
            Forall (fun b => L + FALSE_PULSE_DELAY < b.1 /\ b.1 <= b.2)
                   (accepted_edges i evs (exec st e))) as Hother.
  { intros Hne Hclk. rewrite Hclk in Hge, Hsorted.
    apply IH; [by rewrite exec_timers_length | | done | done].
    by rewrite exec_other_timer. }
  destruct e as [j T1 T2 | d | T1 T2 | | | spd];
    try (cbn [accepted_edges]; by apply Hother).
  cbn [accepted_edges]. destruct (decide (j = i)) as [-> | Hne].
  - cbn [edge_clock] in Hge, Hsorted.
    rewrite bool_decide_eq_true_2 in Hge, Hsorted |- * by done.
    apply Forall_cons in Hge as [HL1 Hge]. apply Forall_cons in Hge as [HL2 Hge].
    apply StronglySorted_inv in Hsorted as [Hsorted H12].
    apply Forall_cons in H12 as [H12 _].
    apply StronglySorted_inv in Hsorted as [Hsorted Hlater].
    cbn [andb]. destruct (debounce_elapsed i T1 st) eqn:Hacc.
    + pose proof (debounce_elapsed_real i T1 L st HL HL1 Hacc) as Hgap.
      constructor; [done |].
      assert (Forall (fun b => T2 + FALSE_PULSE_DELAY < b.1 /\ b.1 <= b.2)
                (accepted_edges i evs (exec st (Edge i T1 T2)))) as Hrest.
      { apply IH; [by rewrite exec_timers_length | | done | done].
        cbn. rewrite (counter_accepted _ _ _ _ Hacc). cbn.
        by rewrite list_lookup_total_insert_eq. }
      eapply Forall_impl; [exact Hrest |]. cbn. intros b [? ?]. lia.
    + cbn [exec]. rewrite (counter_rejected _ _ _ _ Hacc). by apply IH.
  - rewrite bool_decide_eq_false_2 by done. cbn [andb].
    apply Hother.
    + intros ? ? [=]. done.
    + cbn [edge_clock]. by rewrite bool_decide_eq_false_2.
Qed.

End Debounce.

(** ** The clamp of line 84 *)

Section Clamp.
Context {B : Build}.

(** [min(abs(x), 255)] is a PWM value for every [int] but the least one. *)
Lemma drive_speed_range off :
  0 < int_bits ->
  add_int BASE_SPEED off <> smin int_bits ->
  pwm_range (drive_speed off).
Proof.
  intros Hw Hne. unfold drive_speed, pwm_range.
  pose proof (swrap_range int_bits (BASE_SPEED + off) Hw) as Hr.
  fold (add_int BASE_SPEED off) in Hr.
  set (x := add_int BASE_SPEED off) in *.
  unfold in_srange, smin, smax in *.
  unfold arduino_abs. destruct (x >? 0) eqn:Hpos.
  - apply Z.gtb_lt in Hpos. unfold arduino_min.
    destruct (x <? 255) eqn:Hlt; [apply Z.ltb_lt in Hlt |]; lia.
  - rewrite Z.gtb_ltb in Hpos. apply Z.ltb_ge in Hpos.
    unfold neg_int. rewrite swrap_small by (unfold in_srange, smin, smax; lia).
    unfold arduino_min.
    destruct (- x <? 255) eqn:Hlt; [apply Z.ltb_lt in Hlt |]; lia.
Qed.

(** At the least [int] the negation of [abs] wraps back to it, and [min]
    lets the negative value through. *)
Lemma drive_speed_overflow off :
  0 < int_bits ->
  add_int BASE_SPEED off = smin int_bits ->
  drive_speed off = smin int_bits.
Proof.
  intros Hw Heq. unfold drive_speed. rewrite Heq.
  pose proof (pow2_half_pos int_bits Hw) as Hp.
  pose proof (pow2_double int_bits Hw) as Hd.
  assert (neg_int (smin int_bits) = smin int_bits) as Hneg.
  { unfold neg_int, smin, swrap. rewrite Z.opp_involutive.
    replace (2 ^ (int_bits - 1) + 2 ^ (int_bits - 1)) with (1 * 2 ^ int_bits) by lia.
    rewrite Z.mod_mul by lia. lia. }
  unfold arduino_abs.
  replace (smin int_bits >? 0) with false
    by (symmetry; rewrite Z.gtb_ltb; apply Z.ltb_ge; unfold smin; lia).
  rewrite Hneg. unfold arduino_min.
  replace (smin int_bits <? 255) with true
    by (symmetry; apply Z.ltb_lt; unfold smin; lia).
  reflexivity.
Qed.

(** The speed [driveActuators] stores is a PWM value unless
    [BASE_SPEED + offset] comes out as the least [int]. *)
Lemma driveActuators_speed_range T1 T2 st i :
  0 < int_bits ->
  (i < NUMBER_OF_ACTUATORS)%nat ->
  length (actuators st) = NUMBER_OF_ACTUATORS ->
  add_int BASE_SPEED (offset_of st i) <> smin int_bits ->
  pwm_range (speed (actuator (driveActuators T1 T2 st) i)).
Proof.
  intros Hw Hi Hl Hne. rewrite driveActuators_speed by done.
  by apply drive_speed_range.
Qed.

End Clamp.

(** * The properties of the specification *)

(** ** The average (C1) *)

(** C1 as stated does not hold: the floor law
    [avgSteps * N <= sum < (avgSteps + 1) * N] fails when the sum is
    negative.  With counts [-1] and [0] the sum is [-1] and line 79 gives
    [avgSteps = 0], so [0 * 2 <= -1] is false. *)
Lemma floor_law_fails_negative_sum :
  ~ @floor_law uno (state_of_steps [-1; 0] 1).
Proof.
  unfold floor_law. intros [H _]. vm_compute in H. by apply H.
Qed.

(** The law also fails, whatever the sign, once the sum leaves the range
    of the [long] accumulator of line 74: [2147483647 + 1] wraps to
    [-2147483648]. *)
Lemma floor_law_fails_on_overflow :
  ~ @floor_law uno (state_of_steps [2147483647; 1] 1).
Proof.
  unfold floor_law. intros [_ H]. vm_compute in H. discriminate H.
Qed.

(** C1, amended: for every count [N >= 1] and every assignment of step
    counts whose sum fits a [long], [avgSteps] is the quotient of the sum by
    [N] rounded toward zero: it satisfies
    [avgSteps * N <= sum < (avgSteps + 1) * N] when the sum is not negative
    and [(avgSteps - 1) * N < sum <= avgSteps * N] when it is not
    positive. *)
Theorem avgSteps_truncating_division {B : Build} (st : state) :
  (1 <= NUMBER_OF_ACTUATORS)%nat ->
  length (actuators st) = NUMBER_OF_ACTUATORS ->
  in_srange long_bits (sum_steps st) ->
  avgSteps st = Z.quot (sum_steps st) (Z.of_nat NUMBER_OF_ACTUATORS) /\
  (0 <= sum_steps st -> floor_law st) /\
  (sum_steps st <= 0 -> ceil_law st).
Proof.
  intros HN Hlen Hfit.
  assert (totalSteps st = sum_steps st) as Htot
    by (rewrite totalSteps_sum by done; by apply swrap_small).
  assert (avgSteps st = Z.quot (sum_steps st) (Z.of_nat NUMBER_OF_ACTUATORS)) as Havg.
  { unfold avgSteps. rewrite div_long_pos, Htot; [done | | lia].
    apply totalSteps_in_range. }
  split; [done |]. unfold floor_law, ceil_law. rewrite Havg.
  apply quot_trunc_law. lia.
Qed.

Lemma avgSteps_truncating_division_witness :
  (1 <= @NUMBER_OF_ACTUATORS uno)%nat /\
  length (actuators (state_of_steps [-3; 0] 1)) = @NUMBER_OF_ACTUATORS uno /\
  in_srange long_bits (sum_steps (state_of_steps [-3; 0] 1)) /\
  @avgSteps uno (state_of_steps [-3; 0] 1)
  = Z.quot (sum_steps (state_of_steps [-3; 0] 1)) (Z.of_nat (@NUMBER_OF_ACTUATORS uno)) /\
  (0 <= sum_steps (state_of_steps [-3; 0] 1) -> @floor_law uno (state_of_steps [-3; 0] 1)) /\
  (sum_steps (state_of_steps [-3; 0] 1) <= 0 -> @ceil_law uno (state_of_steps [-3; 0] 1)).
Proof.
  assert ((1 <= @NUMBER_OF_ACTUATORS uno)%nat) as H1 by (cbn; lia).
  assert (length (actuators (state_of_steps [-3; 0] 1)) = @NUMBER_OF_ACTUATORS uno)
    as H2 by reflexivity.
  assert (in_srange long_bits (sum_steps (state_of_steps [-3; 0] 1))) as H3
    by (vm_compute; split; discriminate).
  split; [exact H1 |]. split; [exact H2 |]. split; [exact H3 |].
  exact (@avgSteps_truncating_division uno (state_of_steps [-3; 0] 1) H1 H2 H3).
Defined.

(** ** Scenario A (C2) *)

(** C2: with two actuators at [100] and [80] steps, direction forward,
    [OFFSET_MULTIPLIER = 5] and [BASE_SPEED = 100], one call of
    [driveActuators] computes [avgSteps = 90], offset [-50] and speed [50]
    for actuator 0, offset [50] and speed [150] for actuator 1; this on
    every build with two actuators, whatever the width of [int]. *)
Theorem scenario_A {B : Build} (T1 T2 : Z) (st : state) :
  NUMBER_OF_ACTUATORS = 2%nat ->
  16 <= int_bits ->
  steps <$> actuators st = [100; 80] ->
  direction st = 1 ->
  avgSteps st = 90 /\
  offset_of st 0 = -50 /\ speed (actuator (driveActuators T1 T2 st) 0) = 50 /\
  offset_of st 1 = 50 /\ speed (actuator (driveActuators T1 T2 st) 1) = 150.
Proof.
  intros HN Hw Hs Hd.
  assert (length (actuators st) = NUMBER_OF_ACTUATORS) as Hl
    by (by rewrite HN, <- (length_fmap steps), Hs).
  assert (avgSteps st = 90) as Havg.
  { unfold avgSteps, totalSteps. rewrite HN. cbn [for_loop].
    rewrite !steps_actuator, Hs. vm_compute. reflexivity. }
  assert (forall z, -32768 <= z <= 32767 -> swrap int_bits z = z) as Hsmall.
  { intros z Hz. apply swrap_small; [lia |]. by apply int16_in_srange. }
  assert (offset_of st 0 = -50) as H0.
  { unfold offset_of. rewrite Havg, steps_actuator, Hs, Hd.
    unfold offset, long_to_int.
    replace (mul_long _ 1) with (-50) by (vm_compute; reflexivity).
    apply Hsmall. lia. }
  assert (offset_of st 1 = 50) as H1.
  { unfold offset_of. rewrite Havg, steps_actuator, Hs, Hd.
    unfold offset, long_to_int.
    replace (mul_long _ 1) with 50 by (vm_compute; reflexivity).
    apply Hsmall. lia. }
  rewrite !driveActuators_speed by (done || lia).
  unfold speed_of. rewrite H0, H1. unfold drive_speed, add_int.
  change (BASE_SPEED + -50) with 50. change (BASE_SPEED + 50) with 150.
  rewrite !Hsmall by lia. done.
Qed.

Lemma scenario_A_witness :
  @NUMBER_OF_ACTUATORS uno = 2%nat /\ 16 <= @int_bits uno /\
  steps <$> actuators (state_of_steps [100; 80] 1) = [100; 80] /\
  direction (state_of_steps [100; 80] 1) = 1 /\
  @avgSteps uno (state_of_steps [100; 80] 1) = 90 /\
  @offset_of uno (state_of_steps [100; 80] 1) 0 = -50 /\
  speed (actuator (@driveActuators uno 0 0 (state_of_steps [100; 80] 1)) 0) = 50 /\
  @offset_of uno (state_of_steps [100; 80] 1) 1 = 50 /\
  speed (actuator (@driveActuators uno 0 0 (state_of_steps [100; 80] 1)) 1) = 150.
Proof.
  split; [reflexivity |]. split; [cbn; lia |].
  split; [reflexivity |]. split; [reflexivity |].
  apply (@scenario_A uno 0 0 (state_of_steps [100; 80] 1));
    [reflexivity | cbn; lia | reflexivity | reflexivity].
Defined.

(** ** The speed range (C3) *)

(** C3 fails on the code.  On the build of the repository (16-bit [int]),
    with counts [0] and [65496] and direction forward: [avgSteps = 32748],
    the offset of actuator 0 is [163740] as a [long] and [32668] once stored
    in the [int]; [BASE_SPEED + offset] overflows to [-32768], which [abs]
    returns unchanged and [min] passes on.  The speed stored for actuator 0
    and written to its forward pin is [-32768], outside [0, 255]. *)
Theorem speed_leaves_pwm_range :
  @avgSteps uno (state_of_steps [0; 65496] 1) = 32748 /\
  @offset_of uno (state_of_steps [0; 65496] 1) 0 = 32668 /\
  speed (actuator (@driveActuators uno 0 0 (state_of_steps [0; 65496] 1)) 0) = -32768 /\
  ~ pwm_range (speed (actuator (@driveActuators uno 0 0 (state_of_steps [0; 65496] 1)) 0)) /\
  pwm (@driveActuators uno 0 0 (state_of_steps [0; 65496] 1))
  = [(9, -32768); (10, 0); (5, 255); (6, 0)].
Proof.
  repeat split; try (vm_compute; reflexivity).
  intros [Hlo _]. vm_compute in Hlo. by apply Hlo.
Qed.

(** The same defect with a 32-bit [int], where the product of line 83
    overflows the [long] first. *)
Lemma speed_leaves_pwm_range_int32 :
  speed (actuator (@driveActuators due 0 0
                     (state_of_steps [-2147483648; 2147483608] 1)) 0)
  = -2147483648.
Proof. vm_compute. reflexivity. Qed.

(** ** The limit seeker (C4) *)

(** C4: one pass of the do-while loop of [moveToLimit] takes the snapshot,
    lets the dwell window go by and then checks.  The snapshot of every
    actuator is its count at the start of the pass.  If after the window
    every count equals its snapshot the loop ends on that check, whatever
    windows would follow; if the count of some actuator differs the loop
    goes on with the next window. *)
Theorem moveToLimit_exits_iff_unchanged {B : Build} (spd : Z)
    (w : list dwell_item) (ws : list (list dwell_item)) (st : state) :
  length (actuators st) = NUMBER_OF_ACTUATORS ->
  (forall i, (i < NUMBER_OF_ACTUATORS)%nat ->
     prevSteps (actuator (moveToLimit_iterate spd w st) i) = steps (actuator st i)) /\
  ((forall i, (i < NUMBER_OF_ACTUATORS)%nat ->
      steps (actuator (moveToLimit_iterate spd w st) i)
      = prevSteps (actuator (moveToLimit_iterate spd w st) i)) ->
   moveToLimit_loop spd (w :: ws) st = Some (moveToLimit_iterate spd w st)) /\
  ((exists i, (i < NUMBER_OF_ACTUATORS)%nat /\
      steps (actuator (moveToLimit_iterate spd w st) i)
      <> prevSteps (actuator (moveToLimit_iterate spd w st) i)) ->
   moveToLimit_loop spd (w :: ws) st
   = moveToLimit_loop spd ws (moveToLimit_iterate spd w st)).
Proof.
  intros Hlen. split; [| split].
  - intros i Hi. unfold moveToLimit_iterate.
    destruct (dwell_frame spd w (moveToLimit_snapshot st)) as (Hp & _).
    rewrite prevSteps_actuator, Hp, <- prevSteps_actuator.
    by apply moveToLimit_snapshot_spec.
  - intros Hquiet. apply haveStepsChanged_false in Hquiet.
    cbn [moveToLimit_loop]. by rewrite Hquiet.
  - intros Hmoved. apply haveStepsChanged_true in Hmoved.
    cbn [moveToLimit_loop]. by rewrite Hmoved.
Qed.

Lemma moveToLimit_exits_iff_unchanged_witness :
  length (actuators (with_direction 1 (@power_on uno))) = @NUMBER_OF_ACTUATORS uno /\
  @moveToLimit_loop uno 200 [[Spin; Irq 0 10 10; Spin]; [Spin]]
    (with_direction 1 (@power_on uno))
  = @moveToLimit_loop uno 200 [[Spin]]
      (@moveToLimit_iterate uno 200 [Spin; Irq 0 10 10; Spin]
         (with_direction 1 (@power_on uno))).
Proof.
  split; [reflexivity |].
  apply (@moveToLimit_exits_iff_unchanged uno 200 [Spin; Irq 0 10 10; Spin] [[Spin]]
           (with_direction 1 (@power_on uno)) eq_refl).
  exists 0%nat. split; [cbn; lia |]. vm_compute. discriminate.
Defined.

(** Scenario D of the specification: actuator 0 never moves, actuator 1
    moves in the first two windows; the loop ends on the third. *)
Lemma moveToLimit_scenario_D :
  actuators <$> @moveToLimit uno 200
    [[Spin; Irq 1 10 10; Spin]; [Spin; Irq 1 250 250]; [Spin; Spin]; [Irq 1 700 700]]
    (with_direction 1 (@power_on uno))
  = Some [mkActuatorData 0 0 0; mkActuatorData 0 2 2].
Proof. vm_compute. reflexivity. Qed.

(** ** The debounce filter (C5, C6) *)

(** C5: take any execution and an actuator [i] whose handler reads a clock
    that does not run backwards.  Any two edges the handler accepts lie more
    than the debounce delay of 8 ms apart: the later one passed its test
    more than 8 ms after the timestamp stored for the earlier one (an edge is
    accepted only when the test of elapsed time passes, by the definition
    of [accepted_edges]; the others are discarded). *)
Theorem accepted_edges_debounced {B : Build} (i : nat) (evs : list event) (st : state) :
  (i < length (lastDebounceTime st))%nat ->
  StronglySorted Z.le (edge_clock i evs) ->
  StronglySorted debounced (accepted_edges i evs st).
Proof.
  revert st. induction evs as [| e evs IH]; intros st Hi Hsorted; [constructor |].
  assert (edge_clock i (e :: evs) = edge_clock i evs ->
          StronglySorted debounced (accepted_edges i evs (exec st e))) as Hother.
  { intros Hclk. rewrite Hclk in Hsorted.
    apply IH; [by rewrite exec_timers_length | done]. }
  destruct e as [j T1 T2 | d | T1 T2 | | | spd];
    try (cbn [accepted_edges]; by apply Hother).
  cbn [accepted_edges]. destruct (decide (j = i)) as [-> | Hne].
  - cbn [edge_clock] in Hsorted.
    rewrite bool_decide_eq_true_2 in Hsorted |- * by done.
    apply StronglySorted_inv in Hsorted as [Hsorted H12].
    apply Forall_cons in H12 as [H12 _].
    apply StronglySorted_inv in Hsorted as [Hsorted Hlater].
    assert (StronglySorted debounced (accepted_edges i evs (exec st (Edge i T1 T2))))
      as Htail by (apply IH; [by rewrite exec_timers_length | done]).
    cbn [andb]. destruct (debounce_elapsed i T1 st) eqn:Hacc; [| done].
    constructor; [done |].
    assert (Forall (fun b => T2 + FALSE_PULSE_DELAY < b.1 /\ b.1 <= b.2)
              (accepted_edges i evs (exec st (Edge i T1 T2)))) as Hrest.
    { apply accepted_after; [by rewrite exec_timers_length | | done | done].
      cbn. rewrite (counter_accepted _ _ _ _ Hacc). cbn.
      by rewrite list_lookup_total_insert_eq. }
    eapply Forall_impl; [exact Hrest |]. intros b [? ?]. by repeat split.
  - rewrite bool_decide_eq_false_2 by done. cbn [andb].
    apply Hother. cbn [edge_clock]. by rewrite bool_decide_eq_false_2.
Qed.

Lemma accepted_edges_debounced_witness :
  (0 < length (lastDebounceTime (with_direction 1 (@power_on uno))))%nat /\
  StronglySorted Z.le
    (edge_clock 0 [Edge 0 10 10; Edge 0 15 15; Command (-1); Edge 1 16 16; Edge 0 20 21]) /\
  StronglySorted debounced
    (@accepted_edges uno 0
       [Edge 0 10 10; Edge 0 15 15; Command (-1); Edge 1 16 16; Edge 0 20 21]
       (with_direction 1 (@power_on uno))).
Proof.
  assert (StronglySorted Z.le
            (edge_clock 0
               [Edge 0 10 10; Edge 0 15 15; Command (-1); Edge 1 16 16; Edge 0 20 21]))
    as Hclock by (cbn; repeat (constructor; [| repeat constructor; lia]); constructor).
  split; [cbn; lia |]. split; [exact Hclock |].
  apply (@accepted_edges_debounced uno); [cbn; lia | exact Hclock].
Defined.

(** Scenario C of the specification: of three edges of actuator 0 at 10,
    15 and 20 ms the first and the third are counted. *)
Lemma debounce_scenario_C :
  @accepted_edges uno 0 [Edge 0 10 10; Edge 0 15 15; Edge 0 20 20]
    (with_direction 1 (@power_on uno)) = [(10, 10); (20, 20)] /\
  steps <$> actuators (@run uno [Edge 0 10 10; Edge 0 15 15; Edge 0 20 20]
                         (with_direction 1 (@power_on uno))) = [2; 0].
Proof. split; vm_compute; reflexivity. Qed.

(** C6 as stated does not hold for every accepted edge: the count is a
    32-bit [long] and [steps += direction] wraps at the ends of its range.
    With the count of actuator 0 at 2147483647 and the direction forward, an
    edge 10 ms after start-up is accepted and leaves the count at
    -2147483648, not at 2147483648. *)
Lemma counter_wraps_at_long_max :
  ~ counts_exactly 0 10 10 (state_of_steps [2147483647; 0] 1).
Proof.
  unfold counts_exactly. intros H. specialize (H eq_refl).
  vm_compute in H. discriminate H.
Qed.

(** C6, amended: when the test of the handler passes (the edge is accepted),
    the handler stores the new timestamp and adds [direction] to the step
    count of its actuator in 32-bit [long] arithmetic: the count moves by
    plus one when the direction is forward and by minus one when it is
    reverse whenever the result fits a [long], and wraps around otherwise.
    It changes nothing else of the actuators.  When the test fails (the edge
    is rejected) the whole state, step count and timestamp included, stays
    as it was. *)
Theorem counter_effect (i : nat) (T1 T2 : Z) (st : state) :
  (i < length (actuators st))%nat ->
  (i < length (lastDebounceTime st))%nat ->
  (debounce_elapsed i T1 st = true ->
     lastDebounceTime (counter i T1 T2 st) !!! i = millis T2 /\
     steps (actuator (counter i T1 T2 st) i)
     = add_long (steps (actuator st i)) (direction st) /\
     (in_srange long_bits (steps (actuator st i) + direction st) ->
        steps (actuator (counter i T1 T2 st) i) = steps (actuator st i) + direction st) /\
     (direction st = 1 -> in_srange long_bits (steps (actuator st i) + 1) ->
        steps (actuator (counter i T1 T2 st) i) = steps (actuator st i) + 1) /\
     (direction st = -1 -> in_srange long_bits (steps (actuator st i) - 1) ->
        steps (actuator (counter i T1 T2 st) i) = steps (actuator st i) - 1) /\
     speed (actuator (counter i T1 T2 st) i) = speed (actuator st i) /\
     prevSteps (actuator (counter i T1 T2 st) i) = prevSteps (actuator st i) /\
     (forall j, j <> i -> actuators (counter i T1 T2 st) !! j = actuators st !! j) /\
     direction (counter i T1 T2 st) = direction st) /\
  (debounce_elapsed i T1 st = false -> counter i T1 T2 st = st).
Proof.
  intros Hi Ht. split; [| apply counter_rejected].
  intros Hacc. rewrite (counter_accepted _ _ _ _ Hacc).
  unfold actuator. cbn [actuators lastDebounceTime direction].
  rewrite list_lookup_total_insert_eq by done.
  rewrite list_lookup_total_alter_eq by done. cbn [steps speed prevSteps].
  fold (actuator st i).
  assert (forall d, in_srange long_bits (steps (actuator st i) + d) ->
            add_long (steps (actuator st i)) d = steps (actuator st i) + d) as Hexact
    by (intros d Hd; by apply swrap_small).
  repeat split.
  - apply Hexact.
  - intros -> Hfit. by apply Hexact.
  - intros -> Hfit. by apply (Hexact (-1)).
  - intros j Hne. by rewrite list_lookup_alter_ne.
Qed.

Lemma counter_effect_witness :
  (0 < length (actuators (with_direction 1 (@power_on uno))))%nat /\
  (0 < length (lastDebounceTime (with_direction 1 (@power_on uno))))%nat /\
  lastDebounceTime (counter_0 10 11 (with_direction 1 (@power_on uno))) !!! 0%nat = 11 /\
  steps (actuator (counter_0 10 11 (with_direction 1 (@power_on uno))) 0) = 1 /\
  counter_0 3 3 (with_direction 1 (@power_on uno)) = with_direction 1 (@power_on uno).
Proof.
  assert ((0 < length (actuators (with_direction 1 (@power_on uno))))%nat) as H1
    by (cbn; lia).
  assert ((0 < length (lastDebounceTime (with_direction 1 (@power_on uno))))%nat) as H2
    by (cbn; lia).
  split; [exact H1 |]. split; [exact H2 |].
  destruct (counter_effect 0 10 11 (with_direction 1 (@power_on uno)) H1 H2)
    as [Hacc _].
  destruct (counter_effect 0 3 3 (with_direction 1 (@power_on uno)) H1 H2)
    as [_ Hrej].
  destruct (Hacc eq_refl) as (Htime & _ & _ & Hplus & _).
  split; [exact Htime |]. split; [| exact (Hrej eq_refl)].
  apply (Hplus eq_refl). vm_compute. split; discriminate.
Defined.

(** ** Routing of the drive outputs (C7, C8) *)

Section Routing.
Context {B : Build}.

Lemma channel_writes_exclusive (d spd : Z) :
  (if d =? 1 then spd else 0) = 0 \/ (if d =? -1 then spd else 0) = 0.
Proof.
  destruct (d =? 1) eqn:E1; [| by left].
  apply Z.eqb_eq in E1. subst d. by right.
Qed.

Lemma drive_all_pwm st :
  pwm (drive_all st)
  = pwm st ++ flat_map (fun i => channel_writes (direction st) i
                 (speed_readback st i (speed_of st i)))
               (seq 0 NUMBER_OF_ACTUATORS).
Proof.
  unfold drive_all. rewrite drive_loop_pwm. unfold speed_of, offset_of. reflexivity.
Qed.

(** The PWM log of a dwell window: one burst of writes for each pass of the
    busy-wait body, all of them the same. *)
Lemma dwell_pwm spd w : forall st,
  pwm (dwell spd w st)
  = pwm st ++ concat (replicate (spins w)
                (flat_map (fun i => channel_writes (direction st) i spd)
                   (seq 0 NUMBER_OF_ACTUATORS))).
Proof.
  unfold dwell. induction w as [| it w IH]; intros st; [by rewrite app_nil_r |].
  cbn [fold_left]. rewrite IH. destruct it as [| i T1 T2]; cbn [dwell_step spins].
  - destruct (moveToLimit_spin_frame spd st) as (_ & -> & _).
    rewrite moveToLimit_spin_pwm. cbn [replicate concat]. by rewrite <- app_assoc.
  - by rewrite counter_pwm, counter_direction.
Qed.

End Routing.

(** C7: when the direction is stop, one call of [driveActuators] writes 0
    to the forward pin and 0 to the reverse pin of every actuator, and
    nothing else, whatever the step counts are. *)
Theorem stop_writes_zero {B : Build} (T1 T2 : Z) (st : state) :
  direction st = 0 ->
  pwm (driveActuators T1 T2 st)
  = pwm st ++ flat_map (fun i => [(FPWM !!! i, 0); (RPWM !!! i, 0)])
               (seq 0 NUMBER_OF_ACTUATORS).
Proof.
  intros Hd. unfold driveActuators.
  rewrite logActuatorStatus_pwm, drive_all_pwm, Hd. f_equal.
Qed.

Lemma stop_writes_zero_witness :
  direction (state_of_steps [100; 80] 0) = 0 /\
  pwm (@driveActuators uno 0 0 (state_of_steps [100; 80] 0))
  = [(9, 0); (10, 0); (5, 0); (6, 0)].
Proof.
  split; [reflexivity |].
  exact (@stop_writes_zero uno 0 0 (state_of_steps [100; 80] 0) eq_refl).
Defined.

(** C8: for every actuator, of the two values written to its forward and
    reverse pins in one call of [driveActuators] at most one is not zero,
    and so it is in every pass of the busy-wait of [moveToLimit], hence in
    the whole of every dwell window; this for every value of [direction]. *)
Theorem pwm_channels_exclusive {B : Build} (T1 T2 spd : Z) (w : list dwell_item)
    (st : state) :
  (exists f r : nat -> Z,
     pwm (driveActuators T1 T2 st)
     = pwm st ++ flat_map (fun i => [(FPWM !!! i, f i); (RPWM !!! i, r i)])
                  (seq 0 NUMBER_OF_ACTUATORS) /\
     forall i, f i = 0 \/ r i = 0) /\
  (exists f r : nat -> Z,
     pwm (moveToLimit_spin spd st)
     = pwm st ++ flat_map (fun i => [(FPWM !!! i, f i); (RPWM !!! i, r i)])
                  (seq 0 NUMBER_OF_ACTUATORS) /\
     forall i, f i = 0 \/ r i = 0) /\
  (exists f r : nat -> Z,
     pwm (dwell spd w st)
     = pwm st ++ concat (replicate (spins w)
                   (flat_map (fun i => [(FPWM !!! i, f i); (RPWM !!! i, r i)])
                      (seq 0 NUMBER_OF_ACTUATORS))) /\
     forall i, f i = 0 \/ r i = 0).
Proof.
  split; [| split].
  - exists (fun i => if direction st =? 1
                     then speed_readback st i (speed_of st i) else 0),
           (fun i => if direction st =? -1
                     then speed_readback st i (speed_of st i) else 0).
    split; [| intros i; apply channel_writes_exclusive].
    unfold driveActuators. by rewrite logActuatorStatus_pwm, drive_all_pwm.
  - exists (fun _ => if direction st =? 1 then spd else 0),
           (fun _ => if direction st =? -1 then spd else 0).
    split; [| intros i; apply channel_writes_exclusive].
    by rewrite moveToLimit_spin_pwm.
  - exists (fun _ => if direction st =? 1 then spd else 0),
           (fun _ => if direction st =? -1 then spd else 0).
    split; [| intros i; apply channel_writes_exclusive].
    by rewrite dwell_pwm.
Qed.

(** ** Repeated calls (C9) and what a call leaves alone (C10) *)

(** C9: two calls of [driveActuators] from states that hold the same step
    count for every actuator and the same direction compute the same
    offsets, store the same speeds and make the same [analogWrite] calls,
    whatever else differs between the two states and whenever the calls
    are made. *)
Theorem driveActuators_deterministic {B : Build} (T1 T2 T1' T2' : Z) (st1 st2 : state) :
  length (actuators st1) = NUMBER_OF_ACTUATORS ->
  steps <$> actuators st1 = steps <$> actuators st2 ->
  direction st1 = direction st2 ->
  offsets st1 = offsets st2 /\
  speed <$> actuators (driveActuators T1 T2 st1)
  = speed <$> actuators (driveActuators T1' T2' st2) /\
  exists w, pwm (driveActuators T1 T2 st1) = pwm st1 ++ w /\
            pwm (driveActuators T1' T2' st2) = pwm st2 ++ w.
Proof.
  intros Hl Hs Hd. split; [by apply offsets_agree |].
  split; [by apply speeds_agree | by apply pwm_agree].
Qed.

Lemma driveActuators_deterministic_witness :
  length (actuators (state_of_steps [100; 80] 1)) = @NUMBER_OF_ACTUATORS uno /\
  steps <$> actuators (state_of_steps [100; 80] 1) = steps <$> actuators used_state /\
  direction (state_of_steps [100; 80] 1) = direction used_state /\
  @offsets uno (state_of_steps [100; 80] 1) = @offsets uno used_state /\
  speed <$> actuators (@driveActuators uno 0 0 (state_of_steps [100; 80] 1))
  = speed <$> actuators (@driveActuators uno 2000 2001 used_state).
Proof.
  split; [reflexivity |]. split; [reflexivity |]. split; [reflexivity |].
  destruct (@driveActuators_deterministic uno 0 0 2000 2001
              (state_of_steps [100; 80] 1) used_state eq_refl eq_refl eq_refl)
    as (Ho & Hv & _).
  split; [exact Ho | exact Hv].
Defined.

(** C10: a call of [driveActuators], no interrupt falling into it, leaves
    the [steps] and the [prevSteps] of every actuator as they were: each
    actuator after the call is the actuator before it with a new [speed],
    and no actuator is added or removed. *)
Theorem driveActuators_writes_speed_only {B : Build} (T1 T2 : Z) (st : state) :
  steps <$> actuators (driveActuators T1 T2 st) = steps <$> actuators st /\
  prevSteps <$> actuators (driveActuators T1 T2 st) = prevSteps <$> actuators st /\
  length (actuators (driveActuators T1 T2 st)) = length (actuators st) /\
  forall i a, actuators st !! i = Some a ->
    exists v, actuators (driveActuators T1 T2 st) !! i
              = Some (mkActuatorData v (steps a) (prevSteps a)).
Proof.
  destruct (driveActuators_keeps_steps T1 T2 st) as (Hs & Hp & _).
  split; [done |]. split; [done |]. split; [apply driveActuators_length |].
  intros i a Ha. apply (f_equal (fun l => l !! i)) in Hs, Hp.
  rewrite !list_lookup_fmap, Ha in Hs, Hp.
  destruct (actuators (driveActuators T1 T2 st) !! i) as [[v s p] |]; [| done].
  cbn in Hs, Hp. simplify_eq. by exists v.
Qed.

(** * Further properties of the sketch *)

(** ** The status logger (main.cpp 106-120) *)

Section Logger.
Context {B : Build}.

Lemma logActuatorStatus_due T1 T2 st :
  log_due T1 st = true ->
  logActuatorStatus T1 T2 st
  = mkState (actuators st) (direction st) (lastDebounceTime st) (millis T2)
            (pwm st) (serial st ++ status_line st).
Proof.
  intros H. destruct st as [acts d timers logged writes sent].
  unfold log_due in H. unfold logActuatorStatus. rewrite H.
  cbv beta iota zeta delta
    [Serial_println Serial_print with_serial with_lastLogTime status_line actuator
     actuators direction lastDebounceTime lastLogTime pwm serial].
  f_equal. rewrite <- !app_assoc. reflexivity.
Qed.

Lemma logActuatorStatus_not_due T1 T2 st :
  log_due T1 st = false -> logActuatorStatus T1 T2 st = st.
Proof. intros H. unfold logActuatorStatus. unfold log_due in H. by rewrite H. Qed.

Lemma drive_all_log_fields st :
  lastLogTime (drive_all st) = lastLogTime st /\ serial (drive_all st) = serial st.
Proof.
  unfold drive_all.
  apply (for_loop_invariant
           (fun s => lastLogTime s = lastLogTime st /\ serial s = serial st)); [done |].
  intros i s [Ht Hs]. unfold drive_actuator. cbn.
  destruct (direction s =? 1); [done |]. by destruct (direction s =? -1).
Qed.

Lemma log_due_drive_all T1 st : log_due T1 (drive_all st) = log_due T1 st.
Proof. unfold log_due. by destruct (drive_all_log_fields st) as [-> _]. Qed.

(** The test of the logger on the real clock. *)
Lemma log_due_real T1 L st :
  lastLogTime st = millis L -> L <= T1 -> log_due T1 st = true -> L + 1000 <= T1.
Proof.
  intros HL Hle Hdue. unfold log_due in Hdue. rewrite HL in Hdue.
  unfold sub_ulong, millis in Hdue. rewrite uwrap_sub in Hdue.
  apply Z.geb_le in Hdue.
  pose proof (uwrap_le long_bits (T1 - L) ltac:(lia)). lia.
Qed.

Lemma counter_log_fields i T1 T2 st :
  lastLogTime (counter i T1 T2 st) = lastLogTime st /\
  serial (counter i T1 T2 st) = serial st.
Proof. unfold counter. by destruct (debounce_elapsed i T1 st). Qed.

Lemma seek_log_fields spd st :
  (lastLogTime (moveToLimit_reset st) = lastLogTime st /\
   serial (moveToLimit_reset st) = serial st) /\
  (lastLogTime (moveToLimit_snapshot st) = lastLogTime st /\
   serial (moveToLimit_snapshot st) = serial st) /\
  (lastLogTime (moveToLimit_spin spd st) = lastLogTime st /\
   serial (moveToLimit_spin spd st) = serial st).
Proof.
  repeat apply conj;
    by apply (for_loop_invariant
                (fun s => lastLogTime s = lastLogTime st /\ serial s = serial st)).
Qed.

(** Only a call of [driveActuators] that prints moves the log time. *)
Lemma exec_lastLogTime st e :
  lastLogTime (exec st e)
  = match e with
    | Drive T1 T2 => if log_due T1 (drive_all st) then millis T2 else lastLogTime st
    | _ => lastLogTime st
    end.
Proof.
  destruct (seek_log_fields 0 st) as ((Hr & _) & (Hs & _) & _).
  destruct e as [j T1 T2 | d | T1 T2 | | | spd]; cbn [exec]; try done.
  - apply counter_log_fields.
  - unfold driveActuators. destruct (log_due T1 (drive_all st)) eqn:E.
    + by rewrite (logActuatorStatus_due _ _ _ E).
    + rewrite (logActuatorStatus_not_due _ _ _ E). apply drive_all_log_fields.
  - by destruct (seek_log_fields spd st) as (_ & _ & (-> & _)).
Qed.

Lemma logged_after evs : forall st L,
  lastLogTime st = millis L ->
  Forall (fun t => L <= t) (tick_clock evs) ->
  StronglySorted Z.le (tick_clock evs) ->
  Forall (fun b => L + 1000 <= b.1 /\ b.1 <= b.2) (logged_ticks evs st).
Proof.
  induction evs as [| e evs IH]; intros st L HL Hge Hsorted; [constructor |].
  pose proof (exec_lastLogTime st e) as Hexec.
  destruct e as [j T1 T2 | d | T1 T2 | | | spd];
    try (cbn [logged_ticks]; apply IH; [by rewrite Hexec | done | done]).
  cbn [logged_ticks tick_clock] in *.
  apply Forall_cons in Hge as [HL1 Hge]. apply Forall_cons in Hge as [HL2 Hge].
  apply StronglySorted_inv in Hsorted as [Hsorted H12].
  apply Forall_cons in H12 as [H12 _].
  apply StronglySorted_inv in Hsorted as [Hsorted Hlater].
  destruct (log_due T1 (drive_all st)) eqn:Hdue.
  - rewrite log_due_drive_all in Hdue.
    pose proof (log_due_real T1 L st HL HL1 Hdue) as Hgap.
    constructor; [done |].
    assert (Forall (fun b => T2 + 1000 <= b.1 /\ b.1 <= b.2)
              (logged_ticks evs (exec st (Drive T1 T2)))) as Hrest
      by (by apply IH).
    eapply Forall_impl; [exact Hrest |]. cbn. intros b [? ?]. lia.
  - apply IH; [by rewrite Hexec | done | done].
Qed.

End Logger.

(** X1: the status line is printed at most once a second.  In any
    execution whose clock does not run backwards, a call of
    [driveActuators] that prints a line found it due at least 1000 ms
    after the time stored by the call that printed the line before. *)
Theorem logged_ticks_spaced {B : Build} (evs : list event) (st : state) :
  StronglySorted Z.le (tick_clock evs) ->
  StronglySorted log_spaced (logged_ticks evs st).
Proof.
  revert st. induction evs as [| e evs IH]; intros st Hsorted; [constructor |].
  destruct e as [j T1 T2 | d | T1 T2 | | | spd];
    try (cbn [logged_ticks]; by apply IH).
  cbn [logged_ticks tick_clock] in *.
  apply StronglySorted_inv in Hsorted as [Hsorted H12].
  apply Forall_cons in H12 as [H12 _].
  apply StronglySorted_inv in Hsorted as [Hsorted Hlater].
  destruct (log_due T1 (drive_all st)) eqn:Hdue; [| by apply IH].
  constructor; [by apply IH |].
  assert (Forall (fun b => T2 + 1000 <= b.1 /\ b.1 <= b.2)
            (logged_ticks evs (exec st (Drive T1 T2)))) as Hrest.
  { apply logged_after; [| done | done].
    by rewrite exec_lastLogTime, Hdue. }
  eapply Forall_impl; [exact Hrest |]. intros b [? ?]. by repeat split.
Qed.

Lemma logged_ticks_spaced_witness :
  StronglySorted Z.le
    (tick_clock [Drive 1000 1001; Edge 0 1200 1200; Drive 1500 1500; Drive 2001 2003]) /\
  StronglySorted log_spaced
    (@logged_ticks uno
       [Drive 1000 1001; Edge 0 1200 1200; Drive 1500 1500; Drive 2001 2003]
       (with_direction 1 (@power_on uno))).
Proof.
  assert (StronglySorted Z.le
            (tick_clock [Drive 1000 1001; Edge 0 1200 1200; Drive 1500 1500;
                         Drive 2001 2003])) as Hclock
    by (cbn; repeat (constructor; [| repeat constructor; lia]); constructor).
  split; [exact Hclock |].
  exact (@logged_ticks_spaced uno _ (with_direction 1 (@power_on uno)) Hclock).
Defined.

(** X2: a call of [driveActuators] that finds the log due prints one line
    holding, for actuators 0 and 1, the speed the same call has just
    computed and the step count, and stores the time of its second clock
    reading; a call that does not find it due prints nothing and keeps the
    stored time. *)
Theorem driveActuators_status_line {B : Build} (T1 T2 : Z) (st : state) :
  (2 <= NUMBER_OF_ACTUATORS)%nat ->
  length (actuators st) = NUMBER_OF_ACTUATORS ->
  (log_due T1 st = true ->
     serial (driveActuators T1 T2 st)
     = serial st ++
       [SerialStr "Actuator 1 speed: "; SerialNum (speed_of st 0);
        SerialStr " | Pos: "; SerialNum (steps (actuator st 0));
        SerialStr " | Actuator 2 speed: "; SerialNum (speed_of st 1);
        SerialStr " | Pos: "; SerialNum (steps (actuator st 1)); SerialLn] /\
     lastLogTime (driveActuators T1 T2 st) = millis T2) /\
  (log_due T1 st = false ->
     serial (driveActuators T1 T2 st) = serial st /\
     lastLogTime (driveActuators T1 T2 st) = lastLogTime st).
Proof.
  intros HN Hlen.
  destruct (drive_all_log_fields st) as [Ht Hs].
  split; intros Hdue; rewrite <- log_due_drive_all in Hdue.
  - assert (forall i, (i < NUMBER_OF_ACTUATORS)%nat ->
              speed (actuator (drive_all st) i) = speed_of st i) as Hspeed.
    { intros i Hi. rewrite <- (driveActuators_speed T1 T2 st i Hi Hlen).
      unfold driveActuators, actuator. by rewrite logActuatorStatus_actuators. }
    assert (forall i, steps (actuator (drive_all st) i) = steps (actuator st i)) as Hsteps.
    { intros i. apply drive_frame_steps. apply drive_loop_frame. }
    unfold driveActuators. rewrite (logActuatorStatus_due _ _ _ Hdue).
    cbn [serial lastLogTime]. unfold status_line.
    rewrite !Hspeed, !Hsteps, Hs by lia. done.
  - unfold driveActuators. by rewrite (logActuatorStatus_not_due _ _ _ Hdue).
Qed.

Lemma driveActuators_status_line_witness :
  (2 <= @NUMBER_OF_ACTUATORS uno)%nat /\
  length (actuators (state_of_steps [100; 80] 1)) = @NUMBER_OF_ACTUATORS uno /\
  serial (@driveActuators uno 1000 1002 (state_of_steps [100; 80] 1))
  = [SerialStr "Actuator 1 speed: "; SerialNum 50; SerialStr " | Pos: "; SerialNum 100;
     SerialStr " | Actuator 2 speed: "; SerialNum 150; SerialStr " | Pos: ";
     SerialNum 80; SerialLn] /\
  lastLogTime (@driveActuators uno 1000 1002 (state_of_steps [100; 80] 1)) = 1002.
Proof.
  assert ((2 <= @NUMBER_OF_ACTUATORS uno)%nat) as H1 by (cbn; lia).
  split; [exact H1 |]. split; [reflexivity |].
  destruct (@driveActuators_status_line uno 1000 1002 (state_of_steps [100; 80] 1)
              H1 eq_refl) as [Hdue _].
  exact (Hdue eq_refl).
Defined.

(** ** The speed law without overflow (main.cpp 83-84) *)

Section SpeedLaw.
Context {B : Build}.

Lemma long_small (z : Z) : -2147483648 <= z <= 2147483647 -> swrap long_bits z = z.
Proof.
  intros Hz. apply swrap_small; [done |].
  unfold in_srange, smin, smax. change (2 ^ (long_bits - 1)) with 2147483648. lia.
Qed.

Lemma int8_in_srange (w z : Z) : 8 <= w -> -128 <= z <= 127 -> in_srange w z.
Proof.
  intros Hw Hz. unfold in_srange, smin, smax.
  assert (2 ^ 7 <= 2 ^ (w - 1)) by (apply Z.pow_le_mono_r; lia).
  change (2 ^ 7) with 128 in *. lia.
Qed.

(** Line 83 computes the offset of the design as long as the actuator is
    within 6533 steps of the average. *)
Lemma offset_exact avg s d :
  16 <= int_bits -> -6533 <= avg - s <= 6533 -> -1 <= d <= 1 ->
  offset avg s d = (avg - s) * OFFSET_MULTIPLIER * d.
Proof.
  intros Hw Hk Hd. unfold offset, long_to_int, mul_long, sub_long, OFFSET_MULTIPLIER.
  rewrite (long_small (avg - s)) by lia.
  rewrite (long_small ((avg - s) * 5)) by lia.
  rewrite (long_small ((avg - s) * 5 * d)) by nia.
  apply swrap_small; [lia |]. apply int16_in_srange; [done | nia].
Qed.

Lemma arduino_min_min a b : arduino_min a b = Z.min a b.
Proof. unfold arduino_min. destruct (a <? b) eqn:E; [apply Z.ltb_lt in E | apply Z.ltb_ge in E]; lia. Qed.

(** Line 84 is [min(|BASE_SPEED + offset|, 255)] whenever the sum is an
    [int] other than the least one. *)
Lemma drive_speed_exact off :
  16 <= int_bits -> -32767 <= BASE_SPEED + off <= 32767 ->
  drive_speed off = Z.min (Z.abs (BASE_SPEED + off)) 255.
Proof.
  intros Hw Hx. unfold drive_speed, add_int.
  rewrite (swrap_small int_bits (BASE_SPEED + off)) by (lia || by apply int16_in_srange; lia).
  rewrite arduino_min_min. f_equal. unfold arduino_abs.
  destruct (BASE_SPEED + off >? 0) eqn:E.
  - apply Z.gtb_lt in E. lia.
  - rewrite Z.gtb_ltb in E. apply Z.ltb_ge in E. unfold neg_int.
    rewrite swrap_small by (lia || by apply int16_in_srange; lia). lia.
Qed.

(** An offset of zero gives the base speed; here an 8-bit [int] would do. *)
Lemma drive_speed_zero : 8 <= int_bits -> drive_speed 0 = BASE_SPEED.
Proof.
  intros Hw. unfold drive_speed, add_int.
  change (BASE_SPEED + 0) with 100.
  rewrite (swrap_small int_bits 100) by (lia || by apply int8_in_srange; lia).
  reflexivity.
Qed.

Lemma swrap_zero w : 0 < w -> swrap w 0 = 0.
Proof.
  intros Hw. apply swrap_small; [done |].
  pose proof (pow2_half_pos w Hw). unfold in_srange, smin, smax. lia.
Qed.

Lemma offset_stop avg s : 0 < int_bits -> offset avg s 0 = 0.
Proof.
  intros Hw. unfold offset, long_to_int, mul_long.
  rewrite Z.mul_0_r. by rewrite (swrap_zero long_bits), swrap_zero.
Qed.

Lemma offset_level s d : 0 < int_bits -> offset s s d = 0.
Proof.
  intros Hw. unfold offset, long_to_int, mul_long, sub_long.
  assert (swrap long_bits 0 = 0) as E0 by (by apply swrap_zero).
  rewrite Z.sub_diag, E0. change (0 * OFFSET_MULTIPLIER) with 0.
  rewrite E0. change (0 * d) with 0. rewrite E0. by apply swrap_zero.
Qed.

Lemma foldr_add_replicate (n : nat) (s : Z) :
  foldr Z.add 0 (replicate n s) = Z.of_nat n * s.
Proof. induction n as [| n IH]; [done |]. cbn [replicate foldr]. rewrite IH. lia. Qed.

End SpeedLaw.

(** X3: as long as an actuator is within 6533 steps of the average and the
    direction is -1, 0 or 1, no step of lines 83-84 overflows (the [int] may
    be as narrow as 16 bits): the speed [driveActuators] stores is
    [min(|BASE_SPEED + (avgSteps - steps) * OFFSET_MULTIPLIER * direction|, 255)]
    computed on mathematical integers, and it lies in [0, 255]. *)
Theorem speed_follows_design {B : Build} (T1 T2 : Z) (st : state) (i : nat) :
  16 <= int_bits ->
  (i < NUMBER_OF_ACTUATORS)%nat ->
  length (actuators st) = NUMBER_OF_ACTUATORS ->
  -1 <= direction st <= 1 ->
  -6533 <= avgSteps st - steps (actuator st i) <= 6533 ->
  speed (actuator (driveActuators T1 T2 st) i)
  = ideal_speed (avgSteps st) (steps (actuator st i)) (direction st) /\
  pwm_range (speed (actuator (driveActuators T1 T2 st) i)).
Proof.
  intros Hw Hi Hlen Hd Hk. rewrite driveActuators_speed by done.
  unfold speed_of, offset_of. rewrite offset_exact by done.
  rewrite drive_speed_exact by (done || unfold BASE_SPEED, OFFSET_MULTIPLIER; nia).
  unfold ideal_speed, pwm_range. split; [reflexivity | lia].
Qed.

Lemma speed_follows_design_witness :
  16 <= @int_bits uno /\ (0 < @NUMBER_OF_ACTUATORS uno)%nat /\
  length (actuators used_state) = @NUMBER_OF_ACTUATORS uno /\
  -1 <= direction used_state <= 1 /\
  -6533 <= @avgSteps uno used_state - steps (actuator used_state 0) <= 6533 /\
  speed (actuator (@driveActuators uno 0 0 used_state) 0)
  = ideal_speed (@avgSteps uno used_state) (steps (actuator used_state 0))
      (direction used_state) /\
  pwm_range (speed (actuator (@driveActuators uno 0 0 used_state) 0)).
Proof.
  assert (16 <= @int_bits uno) as H1 by (cbn; lia).
  assert ((0 < @NUMBER_OF_ACTUATORS uno)%nat) as H2 by (cbn; lia).
  assert (-1 <= direction used_state <= 1) as H4 by (cbn; lia).
  assert (-6533 <= @avgSteps uno used_state - steps (actuator used_state 0) <= 6533)
    as H5 by (vm_compute; split; discriminate).
  split; [exact H1 |]. split; [exact H2 |]. split; [reflexivity |].
  split; [exact H4 |]. split; [exact H5 |].
  exact (@speed_follows_design uno 0 0 used_state 0 H1 H2 eq_refl H4 H5).
Defined.

(** X4: when every actuator holds the same step count [s] (and [N * s]
    fits the [long] accumulator), the average is [s], every offset is 0 and
    every actuator is given [BASE_SPEED], whatever the direction. *)
Theorem level_actuators_get_base_speed {B : Build} (T1 T2 : Z) (st : state) (s : Z) :
  8 <= int_bits ->
  (1 <= NUMBER_OF_ACTUATORS)%nat ->
  steps <$> actuators st = replicate NUMBER_OF_ACTUATORS s ->
  in_srange long_bits (Z.of_nat NUMBER_OF_ACTUATORS * s) ->
  avgSteps st = s /\
  forall i, (i < NUMBER_OF_ACTUATORS)%nat ->
    offset_of st i = 0 /\
    speed (actuator (driveActuators T1 T2 st) i) = BASE_SPEED.
Proof.
  intros Hw HN Hs Hfit.
  assert (length (actuators st) = NUMBER_OF_ACTUATORS) as Hlen
    by (by rewrite <- (length_fmap steps), Hs, length_replicate).
  assert (sum_steps st = Z.of_nat NUMBER_OF_ACTUATORS * s) as Hsum
    by (unfold sum_steps; by rewrite Hs, foldr_add_replicate).
  assert (avgSteps st = s) as Havg.
  { unfold avgSteps. rewrite div_long_pos by (apply totalSteps_in_range || lia).
    rewrite totalSteps_sum, Hsum, swrap_small by done.
    rewrite Z.mul_comm. apply Z.quot_mul. lia. }
  split; [done |]. intros i Hi.
  assert (offset_of st i = 0) as Hoff.
  { unfold offset_of. rewrite Havg, steps_actuator, Hs.
    rewrite lookup_replicate_2 by done. cbn [default]. apply offset_level. lia. }
  split; [done |]. rewrite driveActuators_speed by done.
  unfold speed_of. rewrite Hoff. by apply drive_speed_zero.
Qed.

Lemma level_actuators_get_base_speed_witness :
  8 <= @int_bits uno /\ (1 <= @NUMBER_OF_ACTUATORS uno)%nat /\
  steps <$> actuators (state_of_steps [-40; -40] (-1))
  = replicate (@NUMBER_OF_ACTUATORS uno) (-40) /\
  in_srange long_bits (Z.of_nat (@NUMBER_OF_ACTUATORS uno) * -40) /\
  @avgSteps uno (state_of_steps [-40; -40] (-1)) = -40 /\
  forall i, (i < @NUMBER_OF_ACTUATORS uno)%nat ->
    @offset_of uno (state_of_steps [-40; -40] (-1)) i = 0 /\
    speed (actuator (@driveActuators uno 0 0 (state_of_steps [-40; -40] (-1))) i)
    = BASE_SPEED.
Proof.
  assert (8 <= @int_bits uno) as H1 by (cbn; lia).
  assert ((1 <= @NUMBER_OF_ACTUATORS uno)%nat) as H2 by (cbn; lia).
  assert (in_srange long_bits (Z.of_nat (@NUMBER_OF_ACTUATORS uno) * -40)) as H4
    by (vm_compute; split; discriminate).
  split; [exact H1 |]. split; [exact H2 |]. split; [reflexivity |]. split; [exact H4 |].
  exact (@level_actuators_get_base_speed uno 0 0 (state_of_steps [-40; -40] (-1)) (-40)
           H1 H2 eq_refl H4).
Defined.

(** X5: with the direction at stop a call of [driveActuators] still stores
    [BASE_SPEED] as the speed of every actuator, whatever the step counts,
    while the pins are driven with 0: the stored speed is not what is
    output. *)
Theorem stop_stores_base_speed {B : Build} (T1 T2 : Z) (st : state) (i : nat) :
  8 <= int_bits ->
  (i < NUMBER_OF_ACTUATORS)%nat ->
  length (actuators st) = NUMBER_OF_ACTUATORS ->
  direction st = 0 ->
  speed (actuator (driveActuators T1 T2 st) i) = BASE_SPEED /\
  Forall (fun w => w.2 = 0)
    (drop (length (pwm st)) (pwm (driveActuators T1 T2 st))).
Proof.
  intros Hw Hi Hlen Hd. split.
  - rewrite driveActuators_speed by done. unfold speed_of, offset_of.
    rewrite Hd, offset_stop by lia. by apply drive_speed_zero.
  - rewrite driveActuators_pwm, drop_app_length, Hd by done.
    apply Forall_flat_map, Forall_forall. intros j _.
    unfold channel_writes. by repeat constructor.
Qed.

Lemma stop_stores_base_speed_witness :
  8 <= @int_bits uno /\ (1 < @NUMBER_OF_ACTUATORS uno)%nat /\
  length (actuators (state_of_steps [500; -3] 0)) = @NUMBER_OF_ACTUATORS uno /\
  direction (state_of_steps [500; -3] 0) = 0 /\
  speed (actuator (@driveActuators uno 0 0 (state_of_steps [500; -3] 0)) 1) = BASE_SPEED /\
  Forall (fun w => w.2 = 0)
    (drop (length (pwm (state_of_steps [500; -3] 0)))
       (pwm (@driveActuators uno 0 0 (state_of_steps [500; -3] 0)))).
Proof.
  assert (8 <= @int_bits uno) as H1 by (cbn; lia).
  assert ((1 < @NUMBER_OF_ACTUATORS uno)%nat) as H2 by (cbn; lia).
  split; [exact H1 |]. split; [exact H2 |]. split; [reflexivity |]. split; [reflexivity |].
  exact (@stop_stores_base_speed uno 0 0 (state_of_steps [500; -3] 0) 1
           H1 H2 eq_refl eq_refl).
Defined.

(** X6: the speed of an actuator as a function of its lag
    [(avgSteps - steps) * direction] behind the average, in forward or
    reverse motion and within 6533 steps of the average.  From a lead of 20
    steps to a lag of 31 steps the speed is [BASE_SPEED + 5 * lag]: it is 0
    at a lead of 20.  From a lag of 31 steps on it is 255.  Beyond a lead of
    20 steps [abs] turns the negative sum around and the speed rises again,
    as [5 * lead - BASE_SPEED], up to a lead of 71 steps, from where it is
    255: it stays below [BASE_SPEED] up to a lead of 40 steps and exceeds it
    beyond. *)
Theorem speed_by_lag {B : Build} (T1 T2 : Z) (st : state) (i : nat) :
  16 <= int_bits ->
  (i < NUMBER_OF_ACTUATORS)%nat ->
  length (actuators st) = NUMBER_OF_ACTUATORS ->
  direction st = 1 \/ direction st = -1 ->
  -6533 <= (avgSteps st - steps (actuator st i)) * direction st <= 6533 ->
  (-20 <= (avgSteps st - steps (actuator st i)) * direction st <= 31 ->
     speed (actuator (driveActuators T1 T2 st) i)
     = BASE_SPEED + 5 * ((avgSteps st - steps (actuator st i)) * direction st)) /\
  (31 <= (avgSteps st - steps (actuator st i)) * direction st ->
     speed (actuator (driveActuators T1 T2 st) i) = 255) /\
  (-71 <= (avgSteps st - steps (actuator st i)) * direction st <= -20 ->
     speed (actuator (driveActuators T1 T2 st) i)
     = 5 * - ((avgSteps st - steps (actuator st i)) * direction st) - BASE_SPEED) /\
  ((avgSteps st - steps (actuator st i)) * direction st <= -71 ->
     speed (actuator (driveActuators T1 T2 st) i) = 255) /\
  (-40 < (avgSteps st - steps (actuator st i)) * direction st < 0 ->
     speed (actuator (driveActuators T1 T2 st) i) < BASE_SPEED) /\
  ((avgSteps st - steps (actuator st i)) * direction st < -40 ->
     BASE_SPEED < speed (actuator (driveActuators T1 T2 st) i)).
Proof.
  intros Hw Hi Hlen Hd Hk. rewrite driveActuators_speed by done.
  unfold speed_of, offset_of.
  rewrite offset_exact by (done || lia).
  rewrite drive_speed_exact by (done || unfold BASE_SPEED, OFFSET_MULTIPLIER; lia).
  unfold BASE_SPEED, OFFSET_MULTIPLIER. repeat split; intros; lia.
Qed.

Lemma speed_by_lag_witness :
  16 <= @int_bits uno /\ (0 < @NUMBER_OF_ACTUATORS uno)%nat /\
  length (actuators (state_of_steps [130; 70] 1)) = @NUMBER_OF_ACTUATORS uno /\
  (direction (state_of_steps [130; 70] 1) = 1 \/
   direction (state_of_steps [130; 70] 1) = -1) /\
  -6533 <= (@avgSteps uno (state_of_steps [130; 70] 1)
            - steps (actuator (state_of_steps [130; 70] 1) 0))
           * direction (state_of_steps [130; 70] 1) <= 6533 /\
  speed (actuator (@driveActuators uno 0 0 (state_of_steps [130; 70] 1)) 0)
  = 5 * - ((@avgSteps uno (state_of_steps [130; 70] 1)
            - steps (actuator (state_of_steps [130; 70] 1) 0))
           * direction (state_of_steps [130; 70] 1)) - BASE_SPEED.
Proof.
  assert (16 <= @int_bits uno) as H1 by (cbn; lia).
  assert ((0 < @NUMBER_OF_ACTUATORS uno)%nat) as H2 by (cbn; lia).
  assert (-6533 <= (@avgSteps uno (state_of_steps [130; 70] 1)
                    - steps (actuator (state_of_steps [130; 70] 1) 0))
                   * direction (state_of_steps [130; 70] 1) <= 6533) as H5
    by (vm_compute; split; discriminate).
  split; [exact H1 |]. split; [exact H2 |]. split; [reflexivity |].
  split; [left; reflexivity |]. split; [exact H5 |].
  destruct (@speed_by_lag uno 0 0 (state_of_steps [130; 70] 1) 0
              H1 H2 eq_refl (or_introl eq_refl) H5) as (_ & _ & Hlead & _).
  apply Hlead. vm_compute. split; discriminate.
Defined.

(** X7: what a call of [driveActuators] writes to the pins is the speed it
    leaves in the actuator records: in forward motion each forward pin
    gets the stored speed of its actuator and each reverse pin 0, in
    reverse motion the other way round, in the order of the actuators. *)
Theorem drive_outputs_match_stored_speed {B : Build} (T1 T2 : Z) (st : state) :
  length (actuators st) = NUMBER_OF_ACTUATORS ->
  (direction st = 1 ->
     pwm (driveActuators T1 T2 st)
     = pwm st ++ flat_map (fun i =>
         [(FPWM !!! i, speed (actuator (driveActuators T1 T2 st) i)); (RPWM !!! i, 0)])
         (seq 0 NUMBER_OF_ACTUATORS)) /\
  (direction st = -1 ->
     pwm (driveActuators T1 T2 st)
     = pwm st ++ flat_map (fun i =>
         [(FPWM !!! i, 0); (RPWM !!! i, speed (actuator (driveActuators T1 T2 st) i))])
         (seq 0 NUMBER_OF_ACTUATORS)).
Proof.
  intros Hlen. split; intros Hd; rewrite driveActuators_pwm at 1 by done;
    f_equal; apply flat_map_seq_ext; intros i Hi;
    rewrite driveActuators_speed by done; unfold channel_writes; by rewrite Hd.
Qed.

Lemma drive_outputs_match_stored_speed_witness :
  length (actuators (state_of_steps [100; 80] (-1))) = @NUMBER_OF_ACTUATORS uno /\
  pwm (@driveActuators uno 0 0 (state_of_steps [100; 80] (-1)))
  = [(9, 0); (10, 150); (5, 0); (6, 50)].
Proof.
  split; [reflexivity |].
  destruct (@drive_outputs_match_stored_speed uno 0 0 (state_of_steps [100; 80] (-1))
              eq_refl) as [_ Hrev].
  exact (Hrev eq_refl).
Defined.

(** ** The pulse counters over an execution (main.cpp 156-168) *)

(** X8: the test of a handler compares the time since the stored timestamp,
    taken modulo 2^32 ms, with the delay.  So within 2^32 ms (49.7 days) of
    the timestamp an edge is accepted exactly when it comes more than 8 ms
    after it: one that comes 8 ms after it is still dropped, and no edge
    later than that is lost. *)
Theorem debounce_threshold (i : nat) (T1 L : Z) (st : state) :
  lastDebounceTime st !!! i = millis L ->
  debounce_elapsed i T1 st = ((T1 - L) mod 2 ^ 32 >? FALSE_PULSE_DELAY) /\
  (L <= T1 < L + 2 ^ 32 ->
   (debounce_elapsed i T1 st = true <-> L + FALSE_PULSE_DELAY < T1)).
Proof.
  intros HL.
  assert (debounce_elapsed i T1 st = ((T1 - L) mod 2 ^ 32 >? FALSE_PULSE_DELAY)) as Heq.
  { unfold debounce_elapsed. rewrite HL. unfold sub_ulong, millis.
    by rewrite uwrap_sub. }
  split; [exact Heq |]. intros Hwin. rewrite Heq.
  rewrite Z.mod_small by lia. rewrite Z.gtb_ltb, Z.ltb_lt. lia.
Qed.

Lemma debounce_threshold_witness :
  lastDebounceTime (counter_0 4294967290 4294967290 (with_direction 1 (@power_on uno)))
    !!! 0%nat = millis 4294967290 /\
  debounce_elapsed 0 4294967298
    (counter_0 4294967290 4294967290 (with_direction 1 (@power_on uno))) = false /\
  debounce_elapsed 0 4294967299
    (counter_0 4294967290 4294967290 (with_direction 1 (@power_on uno))) = true.
Proof.
  assert (lastDebounceTime
            (counter_0 4294967290 4294967290 (with_direction 1 (@power_on uno)))
            !!! 0%nat = millis 4294967290) as HL by reflexivity.
  split; [exact HL |].
  destruct (debounce_threshold 0 4294967298 4294967290 _ HL) as [H8 _].
  destruct (debounce_threshold 0 4294967299 4294967290 _ HL) as [H9 _].
  split; [rewrite H8 | rewrite H9]; reflexivity.
Defined.

Section Counting.
Context {B : Build}.

Lemma exec_direction st e : counting e = true -> direction (exec st e) = direction st.
Proof.
  destruct e as [j T1 T2 | d | T1 T2 | | | spd]; cbn [exec counting]; try done; intros _.
  - apply counter_direction.
  - by destruct (driveActuators_keeps_steps T1 T2 st) as (_ & _ & -> & _).
  - unfold moveToLimit_snapshot.
    by destruct (snapshot_frame NUMBER_OF_ACTUATORS st) as (_ & _ & -> & _).
  - by destruct (moveToLimit_spin_frame spd st) as (_ & -> & _).
Qed.

Lemma moveToLimit_reset_length st :
  length (actuators (moveToLimit_reset st)) = length (actuators st).
Proof.
  unfold moveToLimit_reset.
  apply (for_loop_invariant (fun s => length (actuators s) = length (actuators st)));
    [done |].
  intros i s Hs. cbn. by rewrite !length_alter.
Qed.

Lemma exec_length st e : length (actuators (exec st e)) = length (actuators st).
Proof.
  destruct e as [j T1 T2 | d | T1 T2 | | | spd]; cbn [exec]; try done.
  - apply counter_length.
  - apply driveActuators_length.
  - apply moveToLimit_reset_length.
  - unfold moveToLimit_snapshot.
    by destruct (snapshot_frame NUMBER_OF_ACTUATORS st) as (_ & -> & _).
  - by destruct (moveToLimit_spin_frame spd st) as (-> & _).
Qed.

(** What one event does to the count of actuator [i]. *)
Lemma exec_steps i st e :
  counting e = true ->
  (i < length (actuators st))%nat ->
  steps (actuator (exec st e) i)
  = match e with
    | Edge j T1 T2 =>
        if bool_decide (j = i) && debounce_elapsed i T1 st
        then add_long (steps (actuator st i)) (direction st)
        else steps (actuator st i)
    | _ => steps (actuator st i)
    end.
Proof.
  intros Hc Hi.
  destruct e as [j T1 T2 | d | T1 T2 | | | spd]; cbn [exec counting] in *; try done.
  - destruct (decide (j = i)) as [-> | Hne].
    + rewrite bool_decide_eq_true_2 by done. cbn [andb].
      destruct (debounce_elapsed i T1 st) eqn:Hacc.
      * rewrite (counter_accepted _ _ _ _ Hacc). unfold actuator at 1.
        cbn [actuators]. by rewrite list_lookup_total_alter_eq.
      * by rewrite (counter_rejected _ _ _ _ Hacc).
    + rewrite bool_decide_eq_false_2 by done. cbn [andb].
      unfold counter. destruct (debounce_elapsed j T1 st); [| done].
      unfold actuator at 1. cbn. by rewrite list_lookup_total_alter_ne.
  - destruct (driveActuators_keeps_steps T1 T2 st) as (Hs & _).
    by rewrite !steps_actuator, Hs.
  - unfold moveToLimit_snapshot.
    destruct (snapshot_frame NUMBER_OF_ACTUATORS st) as (Hs & _).
    by rewrite !steps_actuator, Hs.
  - unfold actuator. by destruct (moveToLimit_spin_frame spd st) as (-> & _).
Qed.

End Counting.

(** X9: the step counter counts the accepted edges.  Over an execution in
    which the direction is not set anew and the counters are not zeroed
    (anything else may happen: edges of every actuator, accepted or
    dropped, calls of [driveActuators], snapshots and passes of the
    busy-wait), the count of actuator [i] ends at its start value plus
    [direction] times the number of accepted edges of [i], in [long]
    arithmetic. *)
Theorem steps_count_accepted_edges {B : Build} (i : nat) (evs : list event) (st : state) :
  (i < length (actuators st))%nat ->
  forallb counting evs = true ->
  in_srange long_bits (steps (actuator st i)) ->
  steps (actuator (run evs st) i)
  = swrap long_bits (steps (actuator st i)
                     + direction st * Z.of_nat (length (accepted_edges i evs st))).
Proof.
  revert st. induction evs as [| e evs IH]; intros st Hi Hc Hr.
  - cbn. rewrite Z.mul_0_r, Z.add_0_r. symmetry. by apply swrap_small.
  - cbn [forallb] in Hc. apply andb_prop in Hc as [Hce Hc].
    pose proof (exec_steps i st e Hce Hi) as Hstep.
    pose proof (exec_direction st e Hce) as Hdir.
    assert ((i < length (actuators (exec st e)))%nat) as Hi'
      by (by rewrite exec_length).
    change (run (e :: evs) st) with (run evs (exec st e)).
    assert (in_srange long_bits (steps (actuator (exec st e) i))) as Hr'.
    { rewrite Hstep. destruct e as [j T1 T2 | | | | |]; try done.
      destruct (bool_decide (j = i) && debounce_elapsed i T1 st); [| done].
      by apply swrap_range. }
    rewrite (IH _ Hi' Hc Hr'), Hdir.
    destruct e as [j T1 T2 | d | T1 T2 | | | spd]; cbn [accepted_edges];
      try (by rewrite Hstep).
    rewrite Hstep.
    destruct (bool_decide (j = i) && debounce_elapsed i T1 st); [| done].
    cbn [length]. unfold add_long. rewrite swrap_add_l. f_equal. lia.
Qed.

Lemma steps_count_accepted_edges_witness :
  (0 < length (actuators (with_direction (-1) (@power_on uno))))%nat /\
  forallb counting
    [Edge 0 10 10; Edge 0 15 15; Drive 16 16; Edge 1 17 17; SeekSnapshot; Edge 0 20 21]
  = true /\
  in_srange long_bits (steps (actuator (with_direction (-1) (@power_on uno)) 0)) /\
  steps (actuator
           (@run uno
              [Edge 0 10 10; Edge 0 15 15; Drive 16 16; Edge 1 17 17; SeekSnapshot;
               Edge 0 20 21]
              (with_direction (-1) (@power_on uno))) 0)
  = swrap long_bits (0 + -1 * Z.of_nat 2).
Proof.
  assert ((0 < length (actuators (with_direction (-1) (@power_on uno))))%nat) as H1
    by (cbn; lia).
  assert (in_srange long_bits (steps (actuator (with_direction (-1) (@power_on uno)) 0)))
    as H3 by (vm_compute; split; discriminate).
  split; [exact H1 |]. split; [reflexivity |]. split; [exact H3 |].
  exact (@steps_count_accepted_edges uno 0
           [Edge 0 10 10; Edge 0 15 15; Drive 16 16; Edge 1 17 17; SeekSnapshot;
            Edge 0 20 21]
           (with_direction (-1) (@power_on uno)) H1 eq_refl H3).
Defined.

(** ** The limit seeker as a whole (main.cpp 124-142) *)

Section SeekWhole.
Context {B : Build}.

Lemma seek_frame_refl st : seek_frame st st.
Proof. by repeat split. Qed.

Lemma seek_frame_trans st1 st2 st3 :
  seek_frame st1 st2 -> seek_frame st2 st3 -> seek_frame st1 st3.
Proof.
  intros (Hv & Hl & Hd & Ht & Hs) (Hv' & Hl' & Hd' & Ht' & Hs').
  unfold seek_frame. by rewrite Hv', Hl', Hd', Ht', Hs'.
Qed.

Lemma counter_seek_frame i T1 T2 st : seek_frame st (counter i T1 T2 st).
Proof.
  unfold seek_frame.
  rewrite counter_length, counter_direction.
  destruct (counter_log_fields i T1 T2 st) as [-> ->].
  repeat split. unfold counter. destruct (debounce_elapsed i T1 st); [| done].
  cbn. by rewrite fmap_alter_same.
Qed.

Lemma moveToLimit_spin_seek_frame spd st : seek_frame st (moveToLimit_spin spd st).
Proof.
  unfold seek_frame.
  destruct (moveToLimit_spin_frame spd st) as (-> & -> & _).
  by destruct (seek_log_fields spd st) as (_ & _ & (-> & ->)).
Qed.

Lemma moveToLimit_snapshot_seek_frame st : seek_frame st (moveToLimit_snapshot st).
Proof.
  unfold moveToLimit_snapshot. apply (for_loop_invariant (seek_frame st));
    [apply seek_frame_refl |].
  intros i s Hs. eapply seek_frame_trans; [exact Hs |].
  unfold seek_frame. cbn. by rewrite fmap_alter_same, length_alter.
Qed.

Lemma moveToLimit_reset_seek_frame st : seek_frame st (moveToLimit_reset st).
Proof.
  unfold moveToLimit_reset. apply (for_loop_invariant (seek_frame st));
    [apply seek_frame_refl |].
  intros i s Hs. eapply seek_frame_trans; [exact Hs |].
  unfold seek_frame. cbn. by rewrite !fmap_alter_same, !length_alter.
Qed.

Lemma dwell_seek_frame spd w : forall st, seek_frame st (dwell spd w st).
Proof.
  unfold dwell. induction w as [| it w IH]; intros st; [apply seek_frame_refl |].
  cbn [fold_left]. eapply seek_frame_trans; [| apply IH].
  destruct it as [| i T1 T2]; cbn [dwell_step];
    [apply moveToLimit_spin_seek_frame | apply counter_seek_frame].
Qed.

Lemma moveToLimit_iterate_seek_frame spd w st :
  seek_frame st (moveToLimit_iterate spd w st).
Proof.
  unfold moveToLimit_iterate. eapply seek_frame_trans;
    [apply moveToLimit_snapshot_seek_frame | apply dwell_seek_frame].
Qed.

(** When the loop returns, the check it returned on found no change. *)
Lemma moveToLimit_loop_result spd ws : forall st st',
  moveToLimit_loop spd ws st = Some st' ->
  haveStepsChanged st' = false /\ seek_frame st st'.
Proof.
  induction ws as [| w ws IH]; intros st st' Hret; [done |].
  cbn [moveToLimit_loop] in Hret.
  destruct (haveStepsChanged (moveToLimit_iterate spd w st)) eqn:Hch.
  - destruct (IH _ _ Hret) as [Hq Hf]. split; [done |].
    eapply seek_frame_trans; [apply moveToLimit_iterate_seek_frame | exact Hf].
  - injection Hret as <-. split; [done | apply moveToLimit_iterate_seek_frame].
Qed.

(** A snapshot followed at once by the check finds no change. *)
Lemma haveStepsChanged_snapshot st : haveStepsChanged (moveToLimit_snapshot st) = false.
Proof.
  apply haveStepsChanged_false. intros i Hi. unfold actuator, moveToLimit_snapshot.
  rewrite list_lookup_total_alt, snapshot_lookup.
  rewrite bool_decide_eq_true_2 by done.
  by destruct (actuators st !! i).
Qed.

Lemma quiet_dwell spd w : forall st,
  quiet w = true -> actuators (dwell spd w st) = actuators st.
Proof.
  unfold dwell. induction w as [| it w IH]; intros st Hq; [done |].
  cbn [quiet forallb] in Hq. destruct it as [| i T1 T2]; [| done].
  cbn [fold_left dwell_step]. rewrite IH by done.
  by destruct (moveToLimit_spin_frame spd st) as (-> & _).
Qed.

Lemma haveStepsChanged_quiet spd w st :
  quiet w = true -> haveStepsChanged (moveToLimit_iterate spd w st) = false.
Proof.
  intros Hq. apply haveStepsChanged_false. intros i Hi.
  unfold moveToLimit_iterate, actuator. rewrite quiet_dwell by done.
  pose proof (haveStepsChanged_snapshot st) as Hs.
  rewrite haveStepsChanged_false in Hs. by apply Hs.
Qed.

Lemma moveToLimit_loop_quiet spd pre w post : forall st,
  quiet w = true -> is_Some (moveToLimit_loop spd (pre ++ w :: post) st).
Proof.
  induction pre as [| p pre IH]; intros st Hq; cbn [app moveToLimit_loop].
  - by rewrite haveStepsChanged_quiet.
  - destruct (haveStepsChanged (moveToLimit_iterate spd p st)); [by apply IH | done].
Qed.

End SeekWhole.

(** X10: [moveToLimit] returns as soon as the sensors are silent for one
    dwell window.  If among the dwell windows there is one in which no
    interrupt falls, the call returns (at that window or at an earlier
    one), whatever the counts, the direction and the speed are; taking the
    snapshot and checking at once never reports a change. *)
Theorem moveToLimit_returns_at_quiet_window {B : Build} (spd : Z)
    (pre : list (list dwell_item)) (w : list dwell_item)
    (post : list (list dwell_item)) (st : state) :
  quiet w = true ->
  is_Some (moveToLimit spd (pre ++ w :: post) st) /\
  haveStepsChanged (moveToLimit_snapshot st) = false.
Proof.
  intros Hq. split; [| apply haveStepsChanged_snapshot].
  unfold moveToLimit. by apply moveToLimit_loop_quiet.
Qed.

Lemma moveToLimit_returns_at_quiet_window_witness :
  quiet [Spin; Spin] = true /\
  is_Some (@moveToLimit uno 200 ([[Spin; Irq 0 10 10]; [Irq 1 300 300]] ++ [Spin; Spin] :: [])
             (with_direction 1 (@power_on uno))).
Proof.
  split; [reflexivity |].
  apply (@moveToLimit_returns_at_quiet_window uno 200 [[Spin; Irq 0 10 10]; [Irq 1 300 300]]
           [Spin; Spin] [] (with_direction 1 (@power_on uno)) eq_refl).
Defined.

(** X11: what a returned call of [moveToLimit] leaves behind.  The check it
    returned on found every count equal to its snapshot; the stored speeds,
    the direction and the log time are those from before the call, no
    actuator was added or removed, and the only output on the serial line
    is the announcement printed at entry. *)
Theorem moveToLimit_result {B : Build} (spd : Z) (ws : list (list dwell_item))
    (st st' : state) :
  moveToLimit spd ws st = Some st' ->
  (forall i, (i < NUMBER_OF_ACTUATORS)%nat ->
     steps (actuator st' i) = prevSteps (actuator st' i)) /\
  speed <$> actuators st' = speed <$> actuators st /\
  length (actuators st') = length (actuators st) /\
  direction st' = direction st /\
  lastLogTime st' = lastLogTime st /\
  serial st' = serial st ++ [SerialStr "Moving to limit..."; SerialLn].
Proof.
  unfold moveToLimit. intros Hret.
  destruct (moveToLimit_loop_result _ _ _ _ Hret) as [Hq Hf].
  split; [by apply haveStepsChanged_false |].
  pose proof (moveToLimit_reset_seek_frame
                (Serial_println (SerialStr "Moving to limit...") st)) as Hr.
  destruct (seek_frame_trans _ _ _ Hr Hf) as (Hv & Hl & Hd & Ht & Hs).
  done.
Qed.

Lemma moveToLimit_result_witness :
  @moveToLimit uno 200 [[Spin; Irq 1 10 10]; [Spin]] used_state
  = Some (default used_state
            (@moveToLimit uno 200 [[Spin; Irq 1 10 10]; [Spin]] used_state)) /\
  speed <$> actuators
    (default used_state (@moveToLimit uno 200 [[Spin; Irq 1 10 10]; [Spin]] used_state))
  = speed <$> actuators used_state.
Proof.
  assert (@moveToLimit uno 200 [[Spin; Irq 1 10 10]; [Spin]] used_state
          = Some (default used_state
                    (@moveToLimit uno 200 [[Spin; Irq 1 10 10]; [Spin]] used_state)))
    as Hret by (vm_compute; reflexivity).
  split; [exact Hret |].
  destruct (@moveToLimit_result uno 200 _ used_state _ Hret) as (_ & Hv & _).
  exact Hv.
Defined.

Section SeekZero.
Context {B : Build}.

Lemma reset_step_actuators i st :
  actuators (set_prevSteps i 0 (set_steps i 0 st))
  = alter (fun a => mkActuatorData (speed a) (steps a) 0) i
      (alter (fun a => mkActuatorData (speed a) 0 (prevSteps a)) i (actuators st)).
Proof. reflexivity. Qed.

Lemma reset_lookup n st j :
  actuators (for_loop n (fun i st => set_prevSteps i 0 (set_steps i 0 st)) st) !! j
  = (fun a => if bool_decide (j < n)%nat then mkActuatorData (speed a) 0 0 else a)
      <$> actuators st !! j.
Proof.
  induction n as [| k IH].
  - cbn. by destruct (actuators st !! j).
  - cbn [for_loop]. rewrite reset_step_actuators.
    destruct (decide (k = j)) as [-> | Hne].
    + rewrite !list_lookup_alter_eq, IH.
      rewrite bool_decide_eq_false_2 by lia.
      rewrite bool_decide_eq_true_2 by lia.
      by destruct (actuators st !! j).
    + rewrite !list_lookup_alter_ne, IH by done.
      destruct (actuators st !! j) as [a |]; [| done]. cbn.
      destruct (decide (j < k)%nat).
      * by rewrite !bool_decide_eq_true_2 by lia.
      * by rewrite !bool_decide_eq_false_2 by lia.
Qed.

Lemma seek_pwm st :
  pwm (moveToLimit_reset st) = pwm st /\ pwm (moveToLimit_snapshot st) = pwm st.
Proof.
  split; by apply (for_loop_invariant (fun s => pwm s = pwm st)).
Qed.

Lemma zero_actuator st i :
  Forall (fun a => steps a = 0 /\ prevSteps a = 0) (actuators st) ->
  steps (actuator st i) = 0 /\ prevSteps (actuator st i) = 0.
Proof.
  intros Hz. unfold actuator. rewrite list_lookup_total_alt.
  destruct (actuators st !! i) as [a |] eqn:Ha; [| done].
  exact (Forall_lookup_1 _ _ _ _ Hz Ha).
Qed.

Lemma snapshot_zero st :
  Forall (fun a => steps a = 0 /\ prevSteps a = 0) (actuators st) ->
  Forall (fun a => steps a = 0 /\ prevSteps a = 0) (actuators (moveToLimit_snapshot st)).
Proof.
  intros Hz. apply Forall_lookup_2. intros j a' Ha'.
  unfold moveToLimit_snapshot in Ha'. rewrite snapshot_lookup in Ha'.
  destruct (actuators st !! j) as [a |] eqn:Ha; [| done].
  destruct (Forall_lookup_1 _ _ _ _ Hz Ha) as [Hs Hp].
  cbn in Ha'. injection Ha' as <-. by destruct (bool_decide (j < NUMBER_OF_ACTUATORS)%nat).
Qed.

(** With the direction at stop an accepted edge adds 0: counters at zero
    stay at zero through a dwell window. *)
Lemma dwell_zero spd w : forall st,
  direction st = 0 ->
  Forall (fun a => steps a = 0 /\ prevSteps a = 0) (actuators st) ->
  Forall (fun a => steps a = 0 /\ prevSteps a = 0) (actuators (dwell spd w st)).
Proof.
  unfold dwell. induction w as [| it w IH]; intros st Hd Hz; [done |].
  cbn [fold_left].
  destruct (dwell_step_frame spd st it) as (_ & _ & Hd').
  apply IH; [by rewrite Hd' |].
  destruct it as [| i T1 T2]; cbn [dwell_step].
  - by destruct (moveToLimit_spin_frame spd st) as (-> & _).
  - destruct (debounce_elapsed i T1 st) eqn:Hacc;
      [| by rewrite (counter_rejected _ _ _ _ Hacc)].
    rewrite (counter_accepted _ _ _ _ Hacc). cbn [actuators].
    apply Forall_alter; [done |]. intros a _ [_ Hp]. cbn [steps prevSteps].
    destruct (zero_actuator st i Hz) as [-> _]. rewrite Hd. split; [| done].
    by vm_compute.
Qed.

End SeekZero.

(** X12: the reset at the entry of [moveToLimit] (lines 126-129) zeroes the
    step count and the snapshot of each of the [NUMBER_OF_ACTUATORS]
    actuators and keeps its stored speed. *)
Theorem moveToLimit_reset_zeroes {B : Build} (st : state) (i : nat) (a : ActuatorData) :
  (i < NUMBER_OF_ACTUATORS)%nat ->
  actuators st !! i = Some a ->
  actuators (moveToLimit_reset st) !! i = Some (mkActuatorData (speed a) 0 0).
Proof.
  intros Hi Ha. unfold moveToLimit_reset.
  by rewrite reset_lookup, Ha, bool_decide_eq_true_2.
Qed.

Lemma moveToLimit_reset_zeroes_witness :
  (1 < @NUMBER_OF_ACTUATORS uno)%nat /\
  actuators used_state !! 1%nat = Some (mkActuatorData 9 80 4) /\
  actuators (@moveToLimit_reset uno used_state) !! 1%nat = Some (mkActuatorData 9 0 0).
Proof.
  assert ((1 < @NUMBER_OF_ACTUATORS uno)%nat) as H1 by (cbn; lia).
  split; [exact H1 |]. split; [reflexivity |].
  exact (@moveToLimit_reset_zeroes uno used_state 1 (mkActuatorData 9 80 4) H1 eq_refl).
Defined.

(** X13: called with the direction at stop, [moveToLimit] returns after the
    first dwell window whatever the sensors do in it: every accepted edge
    adds 0, so no count leaves the 0 of the reset.  All counts and snapshots
    are 0 at the return and every value written to a pin during the call
    is 0. *)
Theorem moveToLimit_stopped {B : Build} (spd : Z) (w : list dwell_item)
    (ws : list (list dwell_item)) (st : state) :
  length (actuators st) = NUMBER_OF_ACTUATORS ->
  direction st = 0 ->
  exists st',
    moveToLimit spd (w :: ws) st = Some st' /\
    Forall (fun a => steps a = 0 /\ prevSteps a = 0) (actuators st') /\
    Forall (fun x => x.2 = 0) (drop (length (pwm st)) (pwm st')).
Proof.
  intros Hlen Hd.
  set (st0 := moveToLimit_reset (Serial_println (SerialStr "Moving to limit...") st)).
  assert (Forall (fun a => steps a = 0 /\ prevSteps a = 0) (actuators st0)) as Hz0.
  { apply Forall_lookup_2. intros j a' Ha'.
    unfold st0, moveToLimit_reset in Ha'. rewrite reset_lookup in Ha'.
    cbn [actuators Serial_println with_serial] in Ha'.
    destruct (actuators st !! j) as [a |] eqn:Ha; [| done].
    pose proof (lookup_lt_Some _ _ _ Ha) as Hj.
    rewrite bool_decide_eq_true_2 in Ha' by lia. by injection Ha' as <-. }
  assert (direction st0 = 0) as Hd0.
  { destruct (moveToLimit_reset_seek_frame
                (Serial_println (SerialStr "Moving to limit...") st))
      as (_ & _ & Hdir & _).
    unfold st0. by rewrite Hdir. }
  assert (direction (moveToLimit_snapshot st0) = 0) as Hd1.
  { destruct (moveToLimit_snapshot_seek_frame st0) as (_ & _ & Hdir & _).
    by rewrite Hdir. }
  assert (Forall (fun a => steps a = 0 /\ prevSteps a = 0)
            (actuators (moveToLimit_iterate spd w st0))) as Hz.
  { unfold moveToLimit_iterate. apply dwell_zero; [done |]. by apply snapshot_zero. }
  exists (moveToLimit_iterate spd w st0). split; [| split; [exact Hz |]].
  - unfold moveToLimit. fold st0. cbn [moveToLimit_loop].
    assert (haveStepsChanged (moveToLimit_iterate spd w st0) = false) as ->; [| done].
    apply haveStepsChanged_false. intros i _.
    by destruct (zero_actuator _ i Hz) as [-> ->].
  - unfold moveToLimit_iterate. rewrite dwell_pwm, Hd1.
    destruct (seek_pwm st0) as [_ ->]. unfold st0.
    destruct (seek_pwm (Serial_println (SerialStr "Moving to limit...") st)) as [-> _].
    cbn [pwm Serial_println with_serial]. rewrite drop_app_length.
    apply Forall_concat, Forall_replicate, Forall_flat_map, Forall_forall.
    intros j _. unfold channel_writes. by repeat constructor.
Qed.

Lemma moveToLimit_stopped_witness :
  length (actuators (with_direction 0 used_state)) = @NUMBER_OF_ACTUATORS uno /\
  direction (with_direction 0 used_state) = 0 /\
  exists st',
    @moveToLimit uno 200 ([Spin; Irq 0 100 100; Irq 1 120 120; Spin] :: [[Spin]])
      (with_direction 0 used_state) = Some st' /\
    Forall (fun a => steps a = 0 /\ prevSteps a = 0) (actuators st') /\
    Forall (fun x => x.2 = 0)
      (drop (length (pwm (with_direction 0 used_state))) (pwm st')).
Proof.
  split; [reflexivity |]. split; [reflexivity |].
  exact (@moveToLimit_stopped uno 200 [Spin; Irq 0 100 100; Irq 1 120 120; Spin] [[Spin]]
           (with_direction 0 used_state) eq_refl eq_refl).
Defined.

(** X14: in forward motion every pass of the busy-wait of [moveToLimit]
    writes the speed argument as it is, with no clamp and the same for all
    actuators, to each forward pin and 0 to each reverse pin; nothing else
    is written during a dwell window.  In reverse motion the pins are
    swapped. *)
Theorem dwell_drives_given_speed {B : Build} (spd : Z) (w : list dwell_item) (st : state) :
  (direction st = 1 ->
     pwm (dwell spd w st)
     = pwm st ++ concat (replicate (spins w)
         (flat_map (fun i => [(FPWM !!! i, spd); (RPWM !!! i, 0)])
            (seq 0 NUMBER_OF_ACTUATORS)))) /\
  (direction st = -1 ->
     pwm (dwell spd w st)
     = pwm st ++ concat (replicate (spins w)
         (flat_map (fun i => [(FPWM !!! i, 0); (RPWM !!! i, spd)])
            (seq 0 NUMBER_OF_ACTUATORS)))).
Proof.
  split; intros Hd; by rewrite dwell_pwm, Hd.
Qed.

Lemma dwell_drives_given_speed_witness :
  direction (with_direction 1 (@power_on uno)) = 1 /\
  pwm (@dwell uno 300 [Spin; Irq 0 10 10; Spin] (with_direction 1 (@power_on uno)))
  = [(9, 300); (10, 0); (5, 300); (6, 0); (9, 300); (10, 0); (5, 300); (6, 0)].
Proof.
  split; [reflexivity |].
  destruct (@dwell_drives_given_speed uno 300 [Spin; Irq 0 10 10; Spin]
              (with_direction 1 (@power_on uno))) as [Hfwd _].
  exact (Hfwd eq_refl).
Defined.

(** ** The change detector (main.cpp 146-153) *)

(** X15: [haveStepsChanged] answers true exactly when, for some actuator
    among the [NUMBER_OF_ACTUATORS] it scans, the count differs from the
    snapshot, and false exactly when all of them agree; the early return of
    the loop does not hide a later difference. *)
Theorem haveStepsChanged_spec {B : Build} (st : state) :
  (haveStepsChanged st = true <->
   exists i, (i < NUMBER_OF_ACTUATORS)%nat /\
             steps (actuator st i) <> prevSteps (actuator st i)) /\
  (haveStepsChanged st = false <->
   forall i, (i < NUMBER_OF_ACTUATORS)%nat ->
             steps (actuator st i) = prevSteps (actuator st i)).
Proof. split; [apply haveStepsChanged_true | apply haveStepsChanged_false]. Qed.

(** ** Start-up (main.cpp 43-64) *)

Section SetupFacts.
Context {B : Build}.

Lemma setup_actuator_fields i st :
  actuators (setup_actuator i st) = <[i := mkActuatorData 0 0 0]> (actuators st) /\
  lastDebounceTime (setup_actuator i st) = <[i := 0]> (lastDebounceTime st) /\
  direction (setup_actuator i st) = direction st.
Proof. repeat split. Qed.

Lemma insert_lookup_const {A : Type} (l : list A) (k j : nat) (x : A) :
  <[k := x]> l !! j = (fun a => if bool_decide (j = k) then x else a) <$> l !! j.
Proof.
  destruct (decide (j = k)) as [-> | Hne].
  - rewrite bool_decide_eq_true_2 by done.
    destruct (l !! k) as [a |] eqn:Ha.
    + by rewrite list_lookup_insert_eq by (by eapply lookup_lt_Some).
    + rewrite list_insert_ge by (by apply lookup_ge_None). by rewrite Ha.
  - rewrite list_lookup_insert_ne by done.
    rewrite bool_decide_eq_false_2 by done. by destruct (l !! j).
Qed.

Lemma setup_lookup n st j :
  actuators (for_loop n setup_actuator st) !! j
  = (fun a => if bool_decide (j < n)%nat then mkActuatorData 0 0 0 else a)
      <$> actuators st !! j /\
  lastDebounceTime (for_loop n setup_actuator st) !! j
  = (fun t => if bool_decide (j < n)%nat then 0 else t) <$> lastDebounceTime st !! j.
Proof.
  induction n as [| k IH].
  - cbn. by destruct (actuators st !! j), (lastDebounceTime st !! j).
  - cbn [for_loop].
    destruct (setup_actuator_fields k (for_loop k setup_actuator st)) as (-> & -> & _).
    rewrite !insert_lookup_const. destruct IH as [-> ->].
    destruct (decide (j = k)) as [-> | Hne].
    + rewrite !(bool_decide_eq_true_2 (k = k)) by done.
      rewrite !(bool_decide_eq_true_2 (k < S k)%nat) by lia.
      by destruct (actuators st !! k), (lastDebounceTime st !! k).
    + rewrite !(bool_decide_eq_false_2 (j = k)) by done.
      destruct (decide (j < k)%nat).
      * rewrite !bool_decide_eq_true_2 by lia.
        by destruct (actuators st !! j), (lastDebounceTime st !! j).
      * rewrite !bool_decide_eq_false_2 by lia.
        by destruct (actuators st !! j), (lastDebounceTime st !! j).
Qed.

End SetupFacts.

(** X16: [setup] clears the state the interrupt handlers and the control
    loop work on: whatever the records and timers held, after it every one
    of the [NUMBER_OF_ACTUATORS] actuator records is all zero and every
    debounce timer is 0, which is the state at power-on; the direction is
    not touched. *)
Theorem setup_zeroes {B : Build} (st : state) :
  length (actuators st) = NUMBER_OF_ACTUATORS ->
  length (lastDebounceTime st) = NUMBER_OF_ACTUATORS ->
  actuators (setup st) = actuators power_on /\
  lastDebounceTime (setup st) = lastDebounceTime power_on /\
  direction (setup st) = direction st.
Proof.
  intros Hla Hlt. split; [| split].
  - apply list_eq. intros j. unfold setup.
    destruct (setup_lookup NUMBER_OF_ACTUATORS st j) as [-> _].
    cbn [power_on actuators].
    destruct (actuators st !! j) as [a |] eqn:Ha.
    + pose proof (lookup_lt_Some _ _ _ Ha).
      rewrite lookup_replicate_2 by lia. cbn.
      by rewrite bool_decide_eq_true_2 by lia.
    + apply lookup_ge_None in Ha. cbn. symmetry.
      apply lookup_replicate_None. lia.
  - apply list_eq. intros j. unfold setup.
    destruct (setup_lookup NUMBER_OF_ACTUATORS st j) as [_ ->].
    cbn [power_on lastDebounceTime].
    destruct (lastDebounceTime st !! j) as [t |] eqn:Ht.
    + pose proof (lookup_lt_Some _ _ _ Ht).
      rewrite lookup_replicate_2 by lia. cbn.
      by rewrite bool_decide_eq_true_2 by lia.
    + apply lookup_ge_None in Ht. cbn. symmetry.
      apply lookup_replicate_None. lia.
  - unfold setup.
    by apply (for_loop_invariant (fun s => direction s = direction st)).
Qed.

Lemma setup_zeroes_witness :
  length (actuators used_state) = @NUMBER_OF_ACTUATORS uno /\
  length (lastDebounceTime used_state) = @NUMBER_OF_ACTUATORS uno /\
  actuators (@setup uno used_state) = [mkActuatorData 0 0 0; mkActuatorData 0 0 0] /\
  lastDebounceTime (@setup uno used_state) = [0; 0] /\
  direction (@setup uno used_state) = 1.
Proof.
  split; [reflexivity |]. split; [reflexivity |].
  exact (@setup_zeroes uno used_state eq_refl eq_refl).
Defined.

(** ** The deviations from the average (main.cpp 74-83) *)

Section Deviations.
Context {B : Build}.


End Deviations.


